(** * The timeline ruler of the video editor: drawing and seeking

    A shallow embedding of the [Ruler] component of [src/data/video.ts]
    (the ruler part of the file, lines 82-353): the tick renderer [draw],
    the surface manager [resize], the gesture mapping [handleTimelineClick]
    and the drag session driven by [handleMouseDown] and the document-level
    listeners of the [isDragging] effect.

    Numbers.  A TypeScript [number] is modelled as a rational [Q]: all
    arithmetic is exact, and equality of computed numbers is [Qeq] ([==]).
    A tick index (the result of [Math.floor] / [Math.ceil], and the loop
    counters [i], [j]) is a [Z]; [scale.segments], a count, is a [Z] too.
    Division by zero, which JavaScript answers with an infinity or NaN,
    has no counterpart here: the embedding is meant for [zoomUnit <> 0]. *)

From Stdlib Require Import ZArith QArith Qround Lqa Lia List Sorted String Bool.
Import ListNotations.

Local Open Scope Q_scope.

(** ** Comparisons on numbers, as booleans *)

Definition Qltb (a b : Q) : bool := negb (Qle_bool b a).

(** ** [for] loops

    [for_from n i body] runs [body] at [i], [i+1], ..., [i+n-1] and
    concatenates what each iteration emits; an iteration that hits
    [continue] emits nothing. *)

Fixpoint for_from {A : Type} (n : nat) (i : Z) (body : Z -> list A) : list A :=
  match n with
  | O => []
  | S n' => body i ++ for_from n' (i + 1)%Z body
  end.

(** [for (let i = 0; i <= length; ++i)] *)
Definition for_upto {A : Type} (length : Z) (body : Z -> list A) : list A :=
  for_from (Z.to_nat (length + 1)) 0%Z body.

(** [for (let j = 0; j < segments; ++j)] *)
Definition for_below {A : Type} (segments : Z) (body : Z -> list A) : list A :=
  for_from (Z.to_nat segments) 0%Z body.

(** ** Data *)

(** [scale], read from the store (line 117). *)
Record Scale := {
  zoom : Q;
  unit : Q;
  segments : Z
}.

(** The drawing commands [draw] sends to the 2d context, in the order of
    the calls.  [context.measureText] only reads, it is a function below. *)
Inductive CanvasOp :=
| ClearRect (x y w h : Q)
| Save
| SetStrokeStyle (color : string)
| SetFillStyle (color : string)
| SetLineWidth (w : Q)
| SetFont (size : Q) (family : string)
| SetTextBaseline (baseline : string)
| Translate (x y : Q)
| BeginPath
| FillText (text : string) (x y : Q)
| MoveTo (x y : Q)
| LineTo (x y : Q)
| Stroke
| Restore.

(** A label the first loop of [draw] fills, with the index it belongs to. *)
Record Label := {
  l_value : Z;
  l_startValue : Q;
  l_startPos : Q;
  l_text : string
}.

(** A sub-tick the second loop of [draw] strokes. *)
Record Mark := {
  m_value : Z;
  m_sub : Z;
  m_pos : Q;
  m_lineSize : Q;
  m_strokeStyle : string
}.

(** The caller's [onClick] function, named by a handle: calling it is
    recorded in the trace of effects. *)
Definition Callback := nat.

(** [RulerProps] (lines 94-104): every field is optional. *)
Record RulerProps := {
  height : option Q;
  longLineSize : option Q;
  shortLineSize : option Q;
  offsetX : option Q;
  textOffsetY : option Q;
  textFormat : option (Q -> string);
  scrollLeft : option Q;
  onClick : option Callback
}.

(** The props after the destructuring with defaults of lines 107-116. *)
Record Props := {
  p_height : Q;
  p_longLineSize : Q;
  p_shortLineSize : Q;
  p_offsetX : Q;
  p_textOffsetY : Q;
  p_textFormat : Q -> string;
  p_scrollPos : Q;
  p_onClick : option Callback
}.

(** The [<canvas>] element, as far as the component reads and writes it. *)
Record Canvas := {
  offsetParent : option Q;   (* [offsetParent.offsetWidth], if there is an offset parent *)
  offsetWidth : Q;
  rect_left : Q;             (* [getBoundingClientRect().left] *)
  buf_width : Q;             (* [canvas.width], the backing buffer *)
  buf_height : Q;            (* [canvas.height] *)
  bitmap : list CanvasOp     (* what was drawn since the buffer was last reset *)
}.

(** The 2d context of the canvas held by [canvasRef]. *)
Inductive Context : Set := Context2D.

(** [canvasSize] (line 121). *)
Record CanvasSize := {
  cs_width : Q;
  cs_height : Q
}.

(** What a handler of the component does to the outside, in order. *)
Inductive Effect :=
| SetCanvasWidth (w : Q)
| SetCanvasHeight (h : Q)
| Paint (ctx : Context) (op : CanvasOp)
| SetCanvasSize (size : CanvasSize)
| SetIsDragging (b : bool)
| ConsoleLog (clickX timelineStart relativePosition scale scrollPos : Q)
| CallOnClick (cb : Callback) (units : Q).

Definition MUTED : string := "#a1a1aa".
Definition PROMINENT : string := "#d4d4d8".

(** [Zseq i n] is [i; i+1; ...; i+n-1], the values a loop counter takes. *)
Fixpoint Zseq (i : Z) (n : nat) : list Z :=
  match n with
  | O => []
  | S n' => i :: Zseq (i + 1)%Z n'
  end.

(** Which drawing commands fill a label, and which belong to a stroke. *)
Definition is_text (op : CanvasOp) : bool :=
  match op with FillText _ _ _ => true | _ => false end.

Definition is_line (op : CanvasOp) : bool :=
  match op with MoveTo _ _ | LineTo _ _ | Stroke => true | _ => false end.

Definition is_stroke (op : CanvasOp) : bool :=
  match op with Stroke => true | _ => false end.

(** The order of the sub-ticks: by index, then by sub-index. *)
Definition mark_before (m m' : Mark) : Prop :=
  (m_value m < m_value m')%Z \/
  (m_value m = m_value m' /\ m_sub m < m_sub m')%Z.

Definition label_before (l l' : Label) : Prop := (l_value l < l_value l')%Z.

(** ** Sample inputs

    A scale, props, a canvas and values for the imported constants, at
    which the statements below are instantiated. *)

Definition sample_scale : Scale :=
  {| zoom := 1; unit := 1; segments := 4 |}.

Definition sample_props (scroll offset : Q) : Props :=
  {| p_height := 40; p_longLineSize := 8; p_shortLineSize := 6;
     p_offsetX := offset; p_textOffsetY := 12;
     p_textFormat := fun _ => "0:00"%string;
     p_scrollPos := scroll; p_onClick := Some 7%nat |}.

Definition sample_canvas : Canvas :=
  {| offsetParent := Some 500; offsetWidth := 480; rect_left := 0;
     buf_width := 300; buf_height := 150; bitmap := [] |}.

Definition sample_measure : string -> Q := fun _ => 24.

Definition sample_format : Q -> string := fun _ => "0:00"%string.

(** Props as a caller passes them, with [offsetX] left to its default. *)
Definition sample_ruler_props : RulerProps :=
  {| height := None; longLineSize := None; shortLineSize := None;
     offsetX := None; textOffsetY := None; textFormat := None;
     scrollLeft := Some 30; onClick := Some 7%nat |}.

(** Props without a callback. *)
Definition sample_silent_props : Props :=
  {| p_height := 40; p_longLineSize := 8; p_shortLineSize := 6;
     p_offsetX := 10; p_textOffsetY := 12;
     p_textFormat := fun _ => "0:00"%string;
     p_scrollPos := 0; p_onClick := None |}.

Definition sample_mark : Mark :=
  {| m_value := 0; m_sub := 0; m_pos := 0; m_lineSize := 0;
     m_strokeStyle := MUTED |}.


Definition SAMPLE_FRAME_WIDTH : Q := 188.
Definition SAMPLE_OFFSET_X : Q := 4.
Definition SAMPLE_OFFSET_CANVAS_LEFT : Q := 6.

Section Ruler.

Set Default Proof Using "Type".

(** The constants of [../constants/constants] and the default formatter
    of [@/pages/editor/utils/format] are imported by the component and
    are not part of this file: they are parameters of the development. *)
Variable PREVIEW_FRAME_WIDTH : Q.
Variable TIMELINE_OFFSET_X : Q.
Variable TIMELINE_OFFSET_CANVAS_LEFT : Q.
Variable SMALL_FONT_SIZE : Q.
Variable SECONDARY_FONT : string.
Variable formatTimelineUnit : Q -> string.

(** [context.measureText(text).width], for the font [draw] has set. *)
Variable measureText : string -> Q.

Definition default {A : Type} (o : option A) (d : A) : A :=
  match o with Some a => a | None => d end.

Definition destructure (props : RulerProps) : Props :=
  {| p_height := default (height props) 40;
     p_longLineSize := default (longLineSize props) 8;
     p_shortLineSize := default (shortLineSize props) 6;
     p_offsetX := default (offsetX props)
                    (TIMELINE_OFFSET_X + TIMELINE_OFFSET_CANVAS_LEFT);
     p_textOffsetY := default (textOffsetY props) 12;
     p_textFormat := default (textFormat props) formatTimelineUnit;
     p_scrollPos := default (scrollLeft props) 0;
     p_onClick := onClick props |}.

(** ** [draw] (lines 162-243) *)

Section Draw.
Variable p : Props.
Variable scale : Scale.
Variable scrollPos : Q.
Variable width : Q.

(** line 182 *)
Definition zoomUnit : Q := unit scale * zoom scale * PREVIEW_FRAME_WIDTH.
(** lines 183-185 *)
Definition minRange : Z := Qfloor (scrollPos / zoomUnit).
Definition maxRange : Z := Qceiling ((scrollPos + width) / zoomUnit).
Definition length : Z := (maxRange - minRange)%Z.

(** lines 193-194: value and position of the label of index [value] *)
Definition label_startValue (value : Z) : Q :=
  (inject_Z value * zoomUnit) / zoom scale.
Definition label_startPos (value : Z) : Q :=
  (label_startValue value - scrollPos / zoom scale) * zoom scale.

(** lines 213-214: position of the first sub-tick of index [value] *)
Definition mark_startValue (value : Z) : Q := inject_Z value * zoomUnit.
Definition mark_startPos (value : Z) : Q :=
  mark_startValue value - scrollPos + p_offsetX p.

(** One iteration of the first loop (lines 189-204). *)
Definition label_iter (i : Z) : list Label :=
  let value := (i + minRange)%Z in
  if (value <? 0)%Z then [] else
  let startValue := label_startValue value in
  let startPos := label_startPos value in
  if Qltb startPos (- zoomUnit) || Qle_bool (width + zoomUnit) startPos
  then [] else
  [ {| l_value := value; l_startValue := startValue;
       l_startPos := startPos; l_text := p_textFormat p startValue |} ].

(** One iteration of the inner loop (lines 217-238). *)
Definition mark_iter (value : Z) (startPos : Q) (j : Z) : list Mark :=
  let pos := startPos + (inject_Z j / inject_Z (segments scale)) * zoomUnit in
  if Qltb pos 0 || Qle_bool width pos then [] else
  let lineSize :=
    if (Z.rem j (segments scale) =? 0)%Z
    then p_longLineSize p else p_shortLineSize p in
  let style :=
    if Qeq_bool lineSize (p_shortLineSize p) then MUTED else PROMINENT in
  [ {| m_value := value; m_sub := j; m_pos := pos;
       m_lineSize := lineSize; m_strokeStyle := style |} ].

(** One iteration of the second loop (lines 209-239). *)
Definition marks_iter (i : Z) : list Mark :=
  let value := (i + minRange)%Z in
  if (value <? 0)%Z then [] else
  for_below (segments scale) (mark_iter value (mark_startPos value)).

Definition labels : list Label := for_upto length label_iter.
Definition marks : list Mark := for_upto length marks_iter.

(** lines 200-204 *)
Definition label_op (l : Label) : CanvasOp :=
  let textWidth := measureText (l_text l) in
  let textOffsetX := - textWidth / 2 in
  FillText (l_text l) (l_startPos l + textOffsetX + p_offsetX p)
           (p_textOffsetY p).

(** lines 224-238 *)
Definition mark_ops (m : Mark) : list CanvasOp :=
  let origin := 32 in
  [ SetStrokeStyle (m_strokeStyle m);
    BeginPath;
    MoveTo (m_pos m) origin;
    LineTo (m_pos m) (origin + m_lineSize m);
    Stroke ].

(** lines 171-180 *)
Definition setup (height : Q) : list CanvasOp :=
  [ ClearRect 0 0 width height;
    Save;
    SetStrokeStyle "#71717a";
    SetFillStyle "#71717a";
    SetLineWidth 1;
    SetFont SMALL_FONT_SIZE SECONDARY_FONT;
    SetTextBaseline "top";
    Translate (1 # 2) 0;
    BeginPath ].

Definition draw (height : Q) : list CanvasOp :=
  setup height
    ++ map label_op labels
    ++ flat_map mark_ops marks
    ++ [ Restore ].

End Draw.

(** ** [resize] (lines 144-160)

    [canvasSize] is the state of the render that made the closure; the
    assignments to the canvas, the calls on the context and the state
    update are returned in the order the code performs them. *)

(** lines 121-124: the initial [canvasSize] holds the configured height. *)
Definition initial_canvasSize (p : Props) : CanvasSize :=
  {| cs_width := 0; cs_height := p_height p |}.

Definition container_width (canvas : Canvas) : Q :=
  match offsetParent canvas with
  | Some w => w
  | None => offsetWidth canvas
  end.

Definition resize (p : Props) (scale : Scale) (canvasSize : CanvasSize)
    (canvas : option Canvas) (context : option Context) (scrollPos : Q)
    : list Effect :=
  match canvas, context with
  | Some cv, Some ctx =>
      let width := container_width cv in
      let height := cs_height canvasSize in
      [ SetCanvasWidth width; SetCanvasHeight height ]
        ++ map (Paint ctx) (draw p scale scrollPos width height)
        ++ [ SetCanvasSize {| cs_width := width; cs_height := height |} ]
  | _, _ => []
  end.

(** What the canvas effects do to the element: assigning [width] or
    [height] resets the backing buffer, a context call draws on it. *)
Definition canvas_effect (cv : Canvas) (e : Effect) : Canvas :=
  match e with
  | SetCanvasWidth w =>
      {| offsetParent := offsetParent cv; offsetWidth := offsetWidth cv;
         rect_left := rect_left cv; buf_width := w;
         buf_height := buf_height cv; bitmap := [] |}
  | SetCanvasHeight h =>
      {| offsetParent := offsetParent cv; offsetWidth := offsetWidth cv;
         rect_left := rect_left cv; buf_width := buf_width cv;
         buf_height := h; bitmap := [] |}
  | Paint _ op =>
      {| offsetParent := offsetParent cv; offsetWidth := offsetWidth cv;
         rect_left := rect_left cv; buf_width := buf_width cv;
         buf_height := buf_height cv; bitmap := bitmap cv ++ [ op ] |}
  | _ => cv
  end.

Definition canvas_after (cv : Canvas) (es : list Effect) : Canvas :=
  fold_left canvas_effect es cv.

(** ** [handleTimelineClick] (lines 247-266)

    [canvas] is [canvasRef.current] at the time of the call; [p] and
    [scale] are the props and the scale of the render that made the
    closure. *)

Definition timelineStart : Q := TIMELINE_OFFSET_X + TIMELINE_OFFSET_CANVAS_LEFT.

Definition handleTimelineClick (canvas : option Canvas) (p : Props)
    (scale : Scale) (clickX : Q) : list Effect :=
  match canvas, p_onClick p with
  | Some cv, Some cb =>
      let relativePosition := clickX - rect_left cv - timelineStart in
      ConsoleLog clickX timelineStart relativePosition (zoom scale)
                 (p_scrollPos p)
        :: (if Qle_bool 0 relativePosition
            then [ CallOnClick cb (relativePosition + p_scrollPos p) ]
            else [])
  | _, _ => []
  end.

(** The arguments the callback was called with, in order. *)
Definition callbacks (es : list Effect) : list Q :=
  flat_map (fun e => match e with CallOnClick _ v => [ v ] | _ => [] end) es.

(** The state updates a handler asks for. *)
Definition is_state_update (e : Effect) : bool :=
  match e with
  | SetIsDragging _ | SetCanvasSize _ | SetCanvasWidth _
  | SetCanvasHeight _ | Paint _ _ => true
  | _ => false
  end.

(** ** The drag session (lines 268-295) *)

(** line 268 *)
Definition handleMouseDown (canvas : option Canvas) (p : Props)
    (scale : Scale) (clientX : Q) : list Effect :=
  SetIsDragging true :: handleTimelineClick canvas p scale clientX.

(** What [handleMouseMove] (line 275) closes over: [isDragging] and the
    [handleTimelineClick] of the render whose effect created it. *)
Record MoveClosure := {
  mc_isDragging : bool;
  mc_props : Props;
  mc_scale : Scale
}.

Definition handleMouseMove (canvas : option Canvas) (cl : MoveClosure)
    (clientX : Q) : list Effect :=
  if mc_isDragging cl
  then handleTimelineClick canvas (mc_props cl) (mc_scale cl) clientX
  else [].

(** line 280 *)
Definition handleMouseUp : list Effect := [ SetIsDragging false ].

(** The mounted component and the document it listens on.  A listener is
    known to the document by the identity of its function object: each
    run of the effect makes a new pair, numbered by [w_fresh]. *)
Record World := {
  w_isDragging : bool;                      (* the committed state *)
  w_props : Props;                          (* of the last render *)
  w_scale : Scale;
  w_canvas : option Canvas;                 (* [canvasRef.current] *)
  w_effect : nat;                           (* the pair made by the last run of the effect *)
  w_fresh : nat;
  w_mousemove : list (nat * MoveClosure);   (* document listeners *)
  w_mouseup : list nat
}.

Definition mount (p : Props) (scale : Scale) (canvas : option Canvas) : World :=
  {| w_isDragging := false; w_props := p; w_scale := scale;
     w_canvas := canvas; w_effect := O; w_fresh := 1%nat;
     w_mousemove := []; w_mouseup := [] |}.

(** The effect of lines 274-295, run after a render in which
    [isDragging] changed to [b]: first the cleanup of the previous run
    (lines 291-294), then the body with the new closures. *)
Definition drag_effect (w : World) (b : bool) : World :=
  let old := w_effect w in
  let moves := filter (fun l => negb (Nat.eqb (fst l) old)) (w_mousemove w) in
  let ups := filter (fun l => negb (Nat.eqb l old)) (w_mouseup w) in
  let id := w_fresh w in
  let cl := {| mc_isDragging := b; mc_props := w_props w;
               mc_scale := w_scale w |} in
  {| w_isDragging := b; w_props := w_props w; w_scale := w_scale w;
     w_canvas := w_canvas w; w_effect := id; w_fresh := S id;
     w_mousemove := if b then moves ++ [ (id, cl) ] else moves;
     w_mouseup := if b then ups ++ [ id ] else ups |}.

(** The value of [isDragging] after the updates of [es], from [b]. *)
Definition next_isDragging (b : bool) (es : list Effect) : bool :=
  fold_left (fun b e => match e with SetIsDragging b' => b' | _ => b end) es b.

(** After the handlers of an event have run, React renders again if the
    state changed and runs the effects whose dependencies changed, before
    the next event is dispatched. *)
Definition commit (w : World) (es : list Effect) : World :=
  let b := next_isDragging (w_isDragging w) es in
  if Bool.eqb b (w_isDragging w) then w else drag_effect w b.

Inductive Event :=
| MouseDown (clientX : Q)          (* on the clickable area, line 334 *)
| DocMouseMove (clientX : Q)       (* [mousemove] on the document *)
| DocMouseUp                       (* [mouseup] on the document *)
| Rerender (props : RulerProps) (scale : Scale).   (* new props or scale *)

Definition handlers (w : World) (ev : Event) : list Effect :=
  match ev with
  | MouseDown x => handleMouseDown (w_canvas w) (w_props w) (w_scale w) x
  | DocMouseMove x =>
      flat_map (fun l => handleMouseMove (w_canvas w) (snd l) x) (w_mousemove w)
  | DocMouseUp => flat_map (fun _ => handleMouseUp) (w_mouseup w)
  | Rerender _ _ => []
  end.

Definition step (w : World) (ev : Event) : World * list Effect :=
  match ev with
  | Rerender props scale =>
      ({| w_isDragging := w_isDragging w; w_props := destructure props;
          w_scale := scale; w_canvas := w_canvas w;
          w_effect := w_effect w; w_fresh := w_fresh w;
          w_mousemove := w_mousemove w; w_mouseup := w_mouseup w |}, [])
  | _ => let es := handlers w ev in (commit w es, es)
  end.

Fixpoint run (w : World) (evs : list Event) : World * list Effect :=
  match evs with
  | [] => (w, [])
  | ev :: evs' =>
      let (w1, es1) := step w ev in
      let (w2, es2) := run w1 evs' in
      (w2, es1 ++ es2)
  end.

(** ** The sub-ticks as the specification describes them

    For an index [value], [segments] evenly spaced sub-ticks from the
    position of the index on; the first is the major one (long, prominent),
    the others are minor (short, muted); those outside [0, width) are
    skipped. *)





(** The props with another [offsetX]. *)
Definition set_offsetX (p : Props) (o : Q) : Props :=
  {| p_height := p_height p; p_longLineSize := p_longLineSize p;
     p_shortLineSize := p_shortLineSize p; p_offsetX := o;
     p_textOffsetY := p_textOffsetY p; p_textFormat := p_textFormat p;
     p_scrollPos := p_scrollPos p; p_onClick := p_onClick p |}.

(** The two states of the drag session: while dragging, the document holds
    exactly the pair of listeners made by the last run of the effect;
    otherwise it holds none. *)
Definition drag_invariant (w : World) : Prop :=
  if w_isDragging w
  then (exists cl, w_mousemove w = [ (w_effect w, cl) ]
                   /\ mc_isDragging cl = true)
       /\ w_mouseup w = [ w_effect w ]
  else w_mousemove w = [] /\ w_mouseup w = [].

(** ** Mounting and unmounting (lines 129-142 and 291-294) *)

(** The effect of lines 129-136, run once after the first render.
    [getContext] is what [canvas.getContext("2d")] answers.  The result is
    the argument of [setCanvasContext], when it is called, and what
    [resize] does. *)
Definition mount_effect (p : Props) (scale : Scale) (canvasSize : CanvasSize)
    (canvas : option Canvas) (getContext : Canvas -> option Context)
    : option (option Context) * list Effect :=
  match canvas with
  | Some cv =>
      let context := getContext cv in
      (Some context,
       resize p scale canvasSize (Some cv) context (p_scrollPos p))
  | None => (None, [])
  end.

(** The effect of lines 138-142, run after a render in which
    [canvasContext], [scrollPos] or [scale] changed. *)
Definition update_effect (p : Props) (scale : Scale) (canvasSize : CanvasSize)
    (canvas : option Canvas) (canvasContext : option Context) : list Effect :=
  match canvasContext with
  | Some ctx => resize p scale canvasSize canvas (Some ctx) (p_scrollPos p)
  | None => []
  end.

(** [canvasSize] after the [setCanvasSize] calls of [es]. *)
Definition canvasSize_after (size : CanvasSize) (es : list Effect) : CanvasSize :=
  fold_left (fun s e => match e with SetCanvasSize s' => s' | _ => s end)
            es size.

(** The first two renders of the component, with props and scale that do
    not change meanwhile: after the first both effects run (the second
    sees no context yet); the state then holds the context and the new
    size, and after the second render the effect of lines 138-142 runs
    again if the context changed, on the canvas as the first left it. *)
Definition first_renders (p : Props) (scale : Scale) (canvas : option Canvas)
    (getContext : Canvas -> option Context) : list Effect :=
  let size0 := initial_canvasSize p in
  let (context, es1) := mount_effect p scale size0 canvas getContext in
  let es1' := update_effect p scale size0 canvas None in
  let size1 := canvasSize_after size0 (es1 ++ es1') in
  let canvas1 := option_map (fun cv => canvas_after cv (es1 ++ es1')) canvas in
  let es2 :=
    match context with
    | Some (Some ctx) => update_effect p scale size1 canvas1 (Some ctx)
    | _ => []
    end in
  es1 ++ es1' ++ es2.

(** The cleanup of lines 291-294, run when the component is unmounted: it
    removes the pair of listeners made by the last run of the effect. *)
Definition unmount (w : World) : World :=
  let old := w_effect w in
  {| w_isDragging := w_isDragging w; w_props := w_props w;
     w_scale := w_scale w; w_canvas := w_canvas w;
     w_effect := w_effect w; w_fresh := w_fresh w;
     w_mousemove :=
       filter (fun l => negb (Nat.eqb (fst l) old)) (w_mousemove w);
     w_mouseup := filter (fun l => negb (Nat.eqb l old)) (w_mouseup w) |}.

(** The order of the strokes on the surface: by position. *)
Definition left_of (m m' : Mark) : Prop := m_pos m < m_pos m'.

(** The release of the pointer, among the events. *)
Definition is_release (ev : Event) : bool :=
  match ev with DocMouseUp => true | _ => false end.

(** Two strokes that differ by a shift of the index by [k] only: same
    sub-index, equal position, same length and colour. *)
Definition same_stroke (k : Z) (m m' : Mark) : Prop :=
  m_value m' = (m_value m + k)%Z /\ m_sub m' = m_sub m /\
  m_pos m' == m_pos m /\
  m_lineSize m' = m_lineSize m /\ m_strokeStyle m' = m_strokeStyle m.

(** The events that do not bring a callback: all but a render whose props
    supply [onClick]. *)
Definition lacks_callback (ev : Event) : bool :=
  match ev with
  | Rerender props _ =>
      match onClick props with Some _ => false | None => true end
  | _ => true
  end.

(** No render so far had a callback: neither the last one nor the one
    that made the registered move listener. *)
Definition callback_free (w : World) : Prop :=
  p_onClick (w_props w) = None /\
  Forall (fun l => p_onClick (mc_props (snd l)) = None) (w_mousemove w).

(** * Properties *)

(** A proof depends on the constants its statement names, and on no other. *)
Ltac only_named_constants :=
  try clear measureText; try clear formatTimelineUnit;
  try clear SECONDARY_FONT; try clear SMALL_FONT_SIZE;
  try clear TIMELINE_OFFSET_CANVAS_LEFT; try clear TIMELINE_OFFSET_X;
  try clear PREVIEW_FRAME_WIDTH.

(** ** Numbers and loops *)

Lemma Qltb_lt (a b : Q) : Qltb a b = true <-> a < b.
Proof.
  only_named_constants.
  unfold Qltb. rewrite negb_true_iff.
  destruct (Qle_bool b a) eqn:E.
  - apply Qle_bool_iff in E. split; [discriminate | intro H; lra].
  - split; [intros _ | reflexivity].
    apply Qnot_le_lt. intro H. apply Qle_bool_iff in H. congruence.
Qed.

Lemma Qltb_ge (a b : Q) : Qltb a b = false <-> b <= a.
Proof.
  only_named_constants.
  unfold Qltb. rewrite negb_false_iff. apply Qle_bool_iff.
Qed.

Lemma for_from_Zseq {A : Type} (body : Z -> list A) (n : nat) (i : Z) :
  for_from n i body = flat_map body (Zseq i n).
Proof.
  only_named_constants.
  revert i. induction n as [|n IH]; intro i; simpl; [reflexivity|].
  now rewrite IH.
Qed.

Lemma In_Zseq (k i : Z) (n : nat) :
  In k (Zseq i n) <-> (i <= k < i + Z.of_nat n)%Z.
Proof.
  only_named_constants.
  revert i. induction n as [|n IH]; intro i; simpl.
  - split; [tauto | lia].
  - rewrite IH. lia.
Qed.

Lemma In_for_from {A : Type} (body : Z -> list A) (n : nat) (i : Z) (x : A) :
  In x (for_from n i body) <->
  exists k, (i <= k < i + Z.of_nat n)%Z /\ In x (body k).
Proof.
  only_named_constants.
  rewrite for_from_Zseq, in_flat_map.
  split; intros (k & Hk & Hx); exists k; split; auto; now apply In_Zseq.
Qed.


Lemma StronglySorted_app {A : Type} (R : A -> A -> Prop) (l1 l2 : list A) :
  StronglySorted R l1 -> StronglySorted R l2 ->
  (forall x y, In x l1 -> In y l2 -> R x y) ->
  StronglySorted R (l1 ++ l2).
Proof.
  only_named_constants.
  induction l1 as [|a l1 IH]; intros S1 S2 H; simpl; [assumption|].
  inversion S1 as [|? ? S1' Ha]; subst.
  constructor.
  - apply IH; auto. intros x y Hx Hy. apply H; [now right | assumption].
  - apply Forall_app. split; [assumption|].
    apply Forall_forall. intros y Hy. apply H; [now left | assumption].
Qed.

Lemma for_from_sorted {A : Type} (R : A -> A -> Prop) (body : Z -> list A)
    (n : nat) (i : Z) :
  (forall k, StronglySorted R (body k)) ->
  (forall k k' x y, (k < k')%Z -> In x (body k) -> In y (body k') -> R x y) ->
  StronglySorted R (for_from n i body).
Proof.
  only_named_constants.
  intros Hin Hacross. revert i.
  induction n as [|n IH]; intro i; simpl; [constructor|].
  apply StronglySorted_app; auto.
  intros x y Hx Hy. apply In_for_from in Hy as (k & Hk & Hy).
  apply (Hacross i k); auto. lia.
Qed.

(** ** Positions *)

Lemma label_startPos_eq (scale : Scale) (scrollPos : Q) (value : Z) :
  0 < zoom scale ->
  label_startPos scale scrollPos value
    == inject_Z value * zoomUnit scale - scrollPos.
Proof.
  only_named_constants.
  intro Hz. unfold label_startPos, label_startValue.
  field. intro H. rewrite H in Hz. now apply Qlt_irrefl in Hz.
Qed.

Lemma zoomUnit_pos (scale : Scale) :
  0 < zoom scale -> 0 < unit scale -> 0 < PREVIEW_FRAME_WIDTH ->
  0 < zoomUnit scale.
Proof.
  only_named_constants.
  intros Hz Hu Hw. unfold zoomUnit.
  apply Qmult_lt_0_compat; [apply Qmult_lt_0_compat|]; assumption.
Qed.

(** What the iterations of the two loops emit. *)

Lemma In_label_iter (p : Props) (scale : Scale) (scrollPos width : Q)
    (i : Z) (l : Label) :
  In l (label_iter p scale scrollPos width i) ->
  l_value l = (i + minRange scale scrollPos)%Z /\
  (0 <= l_value l)%Z /\
  l_startPos l = label_startPos scale scrollPos (l_value l) /\
  - zoomUnit scale <= l_startPos l /\
  l_startPos l < width + zoomUnit scale.
Proof.
  only_named_constants.
  unfold label_iter.
  destruct (Z.ltb_spec (i + minRange scale scrollPos) 0) as [|Hv];
    [intros []|].
  destruct (Qltb _ _) eqn:E1; [intros []|].
  destruct (Qle_bool _ _) eqn:E2; simpl; [intros []|].
  intros [<-|[]]; simpl.
  apply Qltb_ge in E1.
  assert (E3 : Qltb (label_startPos scale scrollPos
                       (i + minRange scale scrollPos))
                    (width + zoomUnit scale) = true).
  { unfold Qltb. now rewrite E2. }
  apply Qltb_lt in E3. auto.
Qed.

Lemma In_mark_iter (p : Props) (scale : Scale) (width : Q)
    (value : Z) (startPos : Q) (j : Z) (m : Mark) :
  In m (mark_iter p scale width value startPos j) ->
  m_value m = value /\ m_sub m = j /\
  m_pos m = startPos
            + (inject_Z j / inject_Z (segments scale)) * zoomUnit scale /\
  0 <= m_pos m /\ m_pos m < width.
Proof.
  only_named_constants.
  unfold mark_iter.
  destruct (Qltb _ 0) eqn:E1; [intros []|].
  destruct (Qle_bool width _) eqn:E2; simpl; [intros []|].
  intros [<-|[]]; simpl.
  apply Qltb_ge in E1.
  assert (E3 : Qltb (startPos + inject_Z j / inject_Z (segments scale)
                                * zoomUnit scale) width = true).
  { unfold Qltb. now rewrite E2. }
  apply Qltb_lt in E3. auto.
Qed.

Lemma In_marks (p : Props) (scale : Scale) (scrollPos width : Q) (m : Mark) :
  In m (marks p scale scrollPos width) ->
  (0 <= m_value m)%Z /\
  (minRange scale scrollPos <= m_value m
     <= maxRange scale scrollPos width)%Z /\
  (0 <= m_sub m < segments scale)%Z /\
  m_pos m = mark_startPos p scale scrollPos (m_value m)
            + (inject_Z (m_sub m) / inject_Z (segments scale))
              * zoomUnit scale /\
  0 <= m_pos m /\ m_pos m < width.
Proof.
  only_named_constants.
  unfold marks, for_upto. intro H.
  apply In_for_from in H as (i & Hi & H).
  unfold marks_iter in H.
  destruct (Z.ltb_spec (i + minRange scale scrollPos) 0) as [|Hv];
    [destruct H|].
  unfold for_below in H. apply In_for_from in H as (j & Hj & H).
  apply In_mark_iter in H as (-> & -> & -> & H0 & H1).
  unfold length in Hi.
  repeat split; auto; lia.
Qed.

Lemma In_labels (p : Props) (scale : Scale) (scrollPos width : Q) (l : Label) :
  In l (labels p scale scrollPos width) ->
  (0 <= l_value l)%Z /\
  (minRange scale scrollPos <= l_value l
     <= maxRange scale scrollPos width)%Z /\
  l_startPos l = label_startPos scale scrollPos (l_value l) /\
  - zoomUnit scale <= l_startPos l /\
  l_startPos l < width + zoomUnit scale.
Proof.
  only_named_constants.
  unfold labels, for_upto. intro H.
  apply In_for_from in H as (i & Hi & H).
  apply In_label_iter in H as (Hv & H0 & H1 & H2 & H3).
  unfold length in Hi. repeat split; auto; lia.
Qed.

(** ** The drawn ticks *)

(** C1.  With [scrollPos >= 0], [width >= 0], [zoom > 0], [unit > 0],
    [segments >= 1] (and a positive frame width, so that [zoomUnit > 0]),
    every sub-tick [draw] strokes lies in [[-zoomUnit, width + zoomUnit]]
    (it even lies in [[0, width)]), every label it fills is anchored in
    that interval, and no label and no sub-tick has a negative index; the
    same holds of the [moveTo] and [lineTo] commands sent to the context. *)
Theorem draw_ticks_within_slack (p : Props) (scale : Scale)
    (scrollPos width height : Q) :
  0 <= scrollPos -> 0 <= width ->
  0 < zoom scale -> 0 < unit scale -> (1 <= segments scale)%Z ->
  0 < PREVIEW_FRAME_WIDTH ->
  (forall m, In m (marks p scale scrollPos width) ->
     - zoomUnit scale <= m_pos m /\ m_pos m <= width + zoomUnit scale /\
     (0 <= m_value m)%Z) /\
  (forall l, In l (labels p scale scrollPos width) ->
     - zoomUnit scale <= l_startPos l /\
     l_startPos l <= width + zoomUnit scale /\
     (0 <= l_value l)%Z) /\
  (forall x y,
     In (MoveTo x y) (draw p scale scrollPos width height) \/
     In (LineTo x y) (draw p scale scrollPos width height) ->
     - zoomUnit scale <= x /\ x <= width + zoomUnit scale).
Proof.
  only_named_constants.
  intros Hs Hw Hz Hu Hseg Hpfw.
  pose proof (zoomUnit_pos scale Hz Hu Hpfw) as Hzu.
  assert (HM : forall m, In m (marks p scale scrollPos width) ->
     - zoomUnit scale <= m_pos m /\ m_pos m <= width + zoomUnit scale /\
     (0 <= m_value m)%Z).
  { intros m Hm. apply In_marks in Hm as (Hv & _ & _ & _ & H0 & H1).
    repeat split; [lra | lra | assumption]. }
  split; [exact HM|]. split.
  - intros l Hl. apply In_labels in Hl as (Hv & _ & _ & H0 & H1).
    repeat split; [lra | lra | assumption].
  - intros x y H. unfold draw in H.
    assert (Hin : exists m, In m (marks p scale scrollPos width) /\
                            x = m_pos m).
    { destruct H as [H|H];
        repeat (apply in_app_or in H as [H|H]);
        try (simpl in H; repeat (destruct H as [H|H]; try discriminate H);
             now destruct H);
        try (apply in_map_iff in H as (l & Hl & _); discriminate Hl);
        apply in_flat_map in H as (m & Hm & H); exists m; split; auto;
        simpl in H; repeat (destruct H as [H|H]; try discriminate H);
        try (now destruct H); now inversion H. }
    destruct Hin as (m & Hm & ->).
    destruct (HM m Hm) as (H0 & H1 & _). split; assumption.
Qed.

(** C5.  For every index, scroll position and [zoom > 0], the anchor of
    the label, [(value*zoomUnit/zoom - scrollPos/zoom)*zoom], equals
    [value*zoomUnit - scrollPos], the position the strokes use; so the
    label anchor moved by [offsetX] is the position of the major tick, and
    every label [draw] fills is centred on the major tick of its index. *)
Theorem label_anchor_agrees_with_stroke (p : Props) (scale : Scale)
    (scrollPos width : Q) (value : Z) :
  0 < zoom scale ->
  label_startPos scale scrollPos value
    == inject_Z value * zoomUnit scale - scrollPos /\
  label_startPos scale scrollPos value + p_offsetX p
    == mark_startPos p scale scrollPos value /\
  (forall l, In l (labels p scale scrollPos width) ->
     exists x,
       label_op p l = FillText (l_text l) x (p_textOffsetY p) /\
       x + measureText (l_text l) / 2
         == mark_startPos p scale scrollPos (l_value l)).
Proof.
  only_named_constants.
  intro Hz. split; [now apply label_startPos_eq|]. split.
  - rewrite label_startPos_eq by assumption.
    unfold mark_startPos, mark_startValue. reflexivity.
  - intros l Hl. apply In_labels in Hl as (_ & _ & Hpos & _).
    eexists. split; [reflexivity|].
    rewrite Hpos, label_startPos_eq by assumption.
    unfold mark_startPos, mark_startValue. field.
Qed.

(** ** Major and minor sub-ticks *)







(** ** Order of the drawing commands *)

Lemma nth_error_split_order {A : Type} (P Q : A -> bool) (pre post : list A)
    (i j : nat) (a b : A) :
  Forall (fun x => Q x = false) pre ->
  Forall (fun x => P x = false) post ->
  nth_error (pre ++ post) i = Some a -> P a = true ->
  nth_error (pre ++ post) j = Some b -> Q b = true ->
  (i < j)%nat.
Proof.
  only_named_constants.
  intros Hpre Hpost Hi Pa Hj Qb.
  rewrite Forall_forall in Hpre, Hpost.
  destruct (Nat.lt_ge_cases i (List.length pre)) as [Hil|Hil].
  - destruct (Nat.lt_ge_cases j (List.length pre)) as [Hjl|Hjl]; [|lia].
    rewrite nth_error_app1 in Hj by assumption.
    apply nth_error_In in Hj. apply Hpre in Hj. congruence.
  - rewrite nth_error_app2 in Hi by assumption.
    apply nth_error_In in Hi. apply Hpost in Hi. congruence.
Qed.

Lemma labels_sorted (p : Props) (scale : Scale) (scrollPos width : Q) :
  StronglySorted label_before (labels p scale scrollPos width).
Proof.
  only_named_constants.
  unfold labels, for_upto. apply for_from_sorted.
  - intro k. unfold label_iter.
    repeat match goal with
           | |- context [if ?c then _ else _] => destruct c
           end; repeat constructor.
  - intros k k' x y Hk Hx Hy.
    apply In_label_iter in Hx as (Hx & _), Hy as (Hy & _).
    unfold label_before. lia.
Qed.

Lemma marks_sorted (p : Props) (scale : Scale) (scrollPos width : Q) :
  StronglySorted mark_before (marks p scale scrollPos width).
Proof.
  only_named_constants.
  unfold marks, for_upto. apply for_from_sorted.
  - intro k. unfold marks_iter.
    destruct (k + minRange scale scrollPos <? 0)%Z; [constructor|].
    unfold for_below. apply for_from_sorted.
    + intro j. unfold mark_iter.
      destruct (_ || _); repeat constructor.
    + intros j j' x y Hj Hx Hy.
      apply In_mark_iter in Hx as (Hx & Hx' & _), Hy as (Hy & Hy' & _).
      right. lia.
  - intros k k' x y Hk Hx Hy. unfold marks_iter in Hx, Hy.
    destruct (k + minRange scale scrollPos <? 0)%Z; [destruct Hx|].
    destruct (k' + minRange scale scrollPos <? 0)%Z; [destruct Hy|].
    unfold for_below in Hx, Hy.
    apply In_for_from in Hx as (j & _ & Hx), Hy as (j' & _ & Hy).
    apply In_mark_iter in Hx as (Hx & _), Hy as (Hy & _).
    left. lia.
Qed.

Lemma filter_text_labels (p : Props) (ls : list Label) :
  filter is_text (map (label_op p) ls) = map (label_op p) ls.
Proof.
  only_named_constants.
  induction ls as [|l ls IH]; simpl; [reflexivity | now rewrite IH].
Qed.

Lemma filter_text_marks (ms : list Mark) :
  filter is_text (flat_map mark_ops ms) = [].
Proof.
  only_named_constants.
  induction ms as [|m ms IH]; simpl; [reflexivity | exact IH].
Qed.

Lemma filter_line_labels (p : Props) (ls : list Label) :
  filter is_line (map (label_op p) ls) = [].
Proof.
  only_named_constants.
  induction ls as [|l ls IH]; simpl; [reflexivity | exact IH].
Qed.

Lemma filter_stroke_labels (p : Props) (ls : list Label) :
  filter is_stroke (map (label_op p) ls) = [].
Proof.
  only_named_constants.
  induction ls as [|l ls IH]; simpl; [reflexivity | exact IH].
Qed.

Lemma filter_line_marks (ms : list Mark) :
  filter is_line (flat_map mark_ops ms)
  = flat_map (fun m => [ MoveTo (m_pos m) 32;
                         LineTo (m_pos m) (32 + m_lineSize m);
                         Stroke ]) ms.
Proof.
  only_named_constants.
  induction ms as [|m ms IH]; simpl; [reflexivity | now rewrite IH].
Qed.

Lemma filter_stroke_marks (ms : list Mark) :
  filter is_stroke (flat_map mark_ops ms) = map (fun _ => Stroke) ms.
Proof.
  only_named_constants.
  induction ms as [|m ms IH]; simpl; [reflexivity | now rewrite IH].
Qed.

(** C8.  In every run of [draw] the first command is the clearing of the
    surface; every [fillText] comes before every command of a stroke
    ([moveTo], [lineTo], [stroke]); the [fillText] commands are those of
    the labels, in strictly increasing index order; and the strokes are
    those of the sub-ticks, in strictly increasing (index, sub-index)
    order.  (Between the clearing and the first label [draw] also saves the
    context and sets styles, font and transform, and it restores the
    context at the end.) *)
Theorem draw_text_before_strokes (p : Props) (scale : Scale)
    (scrollPos width height : Q) :
  let ops := draw p scale scrollPos width height in
  (exists rest, ops = ClearRect 0 0 width height :: rest) /\
  (forall i j a b,
     nth_error ops i = Some a -> is_text a = true ->
     nth_error ops j = Some b -> is_line b = true ->
     (i < j)%nat) /\
  filter is_text ops = map (label_op p) (labels p scale scrollPos width) /\
  StronglySorted label_before (labels p scale scrollPos width) /\
  filter is_stroke ops
    = map (fun _ => Stroke) (marks p scale scrollPos width) /\
  filter is_line ops
    = flat_map (fun m => [ MoveTo (m_pos m) 32;
                           LineTo (m_pos m) (32 + m_lineSize m);
                           Stroke ])
               (marks p scale scrollPos width) /\
  StronglySorted mark_before (marks p scale scrollPos width).
Proof.
  only_named_constants.
  intro ops. subst ops. unfold draw, setup.
  split; [eexists; reflexivity|].
  split.
  - intros i j a b Hi Ha Hj Hb.
    rewrite app_assoc in Hi, Hj.
    eapply (nth_error_split_order is_text is_line _ _ i j a b);
      [ | | exact Hi | exact Ha | exact Hj | exact Hb ].
    + apply Forall_app. split.
      * repeat constructor.
      * apply Forall_forall. intros x Hx.
        apply in_map_iff in Hx as (l & <- & _). reflexivity.
    + apply Forall_app. split; [|repeat constructor].
      apply Forall_forall. intros x Hx.
      apply in_flat_map in Hx as (m & _ & Hx). simpl in Hx.
      repeat (destruct Hx as [<-|Hx]; [reflexivity|]). destruct Hx.
  - split; [|split; [apply labels_sorted|split; [|split]]].
    + rewrite !filter_app, filter_text_labels, filter_text_marks. simpl.
      now rewrite app_nil_r.
    + rewrite !filter_app, filter_stroke_labels, filter_stroke_marks. simpl.
      now rewrite app_nil_r.
    + rewrite !filter_app, filter_line_labels, filter_line_marks. simpl.
      now rewrite app_nil_r.
    + apply marks_sorted.
Qed.

(** ** A surface of width zero *)





(** ** [resize] *)

Lemma canvas_after_paint (ctx : Context) (ops : list CanvasOp) (cv : Canvas) :
  canvas_after cv (map (Paint ctx) ops)
  = {| offsetParent := offsetParent cv; offsetWidth := offsetWidth cv;
       rect_left := rect_left cv; buf_width := buf_width cv;
       buf_height := buf_height cv; bitmap := bitmap cv ++ ops |}.
Proof.
  only_named_constants.
  unfold canvas_after. revert cv.
  induction ops as [|op ops IH]; intro cv; simpl.
  - rewrite app_nil_r. now destruct cv.
  - rewrite IH. simpl. now rewrite <- app_assoc.
Qed.


(** ** [handleTimelineClick] *)

(** C3.  [handleTimelineClick] calls the callback exactly when the canvas
    is there, the callback was supplied and
    [relativePosition = clickX - rect.left - timelineStart] is not
    negative; it then calls it once, with [relativePosition + scrollPos].
    In every other case it calls nothing; and in no case does it update
    the state of the component or touch the canvas.  (When canvas and
    callback are there it also writes its debugging line to the console,
    whether the click is accepted or not.) *)
Theorem handleTimelineClick_guard (canvas : option Canvas) (p : Props)
    (scale : Scale) (clickX : Q) :
  let es := handleTimelineClick canvas p scale clickX in
  ((exists cb v, In (CallOnClick cb v) es) <->
   (exists cv cb, canvas = Some cv /\ p_onClick p = Some cb /\
                  0 <= clickX - rect_left cv - timelineStart)) /\
  (forall cv cb, canvas = Some cv -> p_onClick p = Some cb ->
     0 <= clickX - rect_left cv - timelineStart ->
     filter (fun e => match e with CallOnClick _ _ => true | _ => false end) es
       = [ CallOnClick cb
             (clickX - rect_left cv - timelineStart + p_scrollPos p) ] /\
     callbacks es
       = [ clickX - rect_left cv - timelineStart + p_scrollPos p ]) /\
  (~ (exists cv cb, canvas = Some cv /\ p_onClick p = Some cb /\
                    0 <= clickX - rect_left cv - timelineStart) ->
   callbacks es = []) /\
  forallb (fun e => negb (is_state_update e)) es = true.
Proof.
  only_named_constants.
  intro es. subst es. unfold handleTimelineClick.
  destruct canvas as [cv|]; [destruct (p_onClick p) as [cb|] eqn:Ecb|].
  - destruct (Qle_bool 0 (clickX - rect_left cv - timelineStart)) eqn:E.
    + assert (H : 0 <= clickX - rect_left cv - timelineStart)
        by now apply Qle_bool_iff.
      split; [split|split; [|split]].
      * intros _. exists cv, cb. auto.
      * intros _. do 2 eexists. right. left. reflexivity.
      * intros cv' cb' Hcv Hcb _. inversion Hcv; inversion Hcb; subst.
        split; reflexivity.
      * intro Hn. exfalso. apply Hn. exists cv, cb. auto.
      * reflexivity.
    + assert (H : ~ 0 <= clickX - rect_left cv - timelineStart).
      { intro H. apply Qle_bool_iff in H. congruence. }
      split; [split|split; [|split]].
      * intros (cb' & v & [Hin|[]]). discriminate Hin.
      * intros (cv' & cb' & Hcv & _ & Hle). inversion Hcv; subst. contradiction.
      * intros cv' cb' Hcv _ Hle. inversion Hcv; subst. contradiction.
      * reflexivity.
      * reflexivity.
  - split; [split|split; [|split]].
    + intros (cb' & v & []).
    + intros (cv' & cb' & _ & Hcb & _). discriminate Hcb.
    + intros cv' cb' _ Hcb. discriminate Hcb.
    + reflexivity.
    + reflexivity.
  - split; [split|split; [|split]].
    + intros (cb' & v & []).
    + intros (cv' & cb' & Hcv & _). discriminate Hcv.
    + intros cv' cb' Hcv. discriminate Hcv.
    + reflexivity.
    + reflexivity.
Qed.

(** ** Clicking on a drawn tick *)

Lemma handleTimelineClick_accept (cv : Canvas) (cb : Callback) (p : Props)
    (scale : Scale) (clickX : Q) :
  p_onClick p = Some cb ->
  0 <= clickX - rect_left cv - timelineStart ->
  handleTimelineClick (Some cv) p scale clickX
  = [ ConsoleLog clickX timelineStart (clickX - rect_left cv - timelineStart)
                 (zoom scale) (p_scrollPos p);
      CallOnClick cb (clickX - rect_left cv - timelineStart + p_scrollPos p) ].
Proof.
  only_named_constants.
  intros Hcb H. unfold handleTimelineClick. rewrite Hcb.
  apply Qle_bool_iff in H. now rewrite H.
Qed.

Lemma handleTimelineClick_ignore (cv : Canvas) (cb : Callback) (p : Props)
    (scale : Scale) (clickX : Q) :
  p_onClick p = Some cb ->
  clickX - rect_left cv - timelineStart < 0 ->
  handleTimelineClick (Some cv) p scale clickX
  = [ ConsoleLog clickX timelineStart (clickX - rect_left cv - timelineStart)
                 (zoom scale) (p_scrollPos p) ].
Proof.
  only_named_constants.
  intros Hcb H. unfold handleTimelineClick. rewrite Hcb.
  destruct (Qle_bool _ _) eqn:E; [|reflexivity].
  apply Qle_bool_iff in E. lra.
Qed.

(** C2, as the code has it.  With the canvas there and the callback
    supplied: for a tick index [i] whose position is not left of the
    timeline origin, [scrollPos <= i*zoomUnit], a click at
    [(i*zoomUnit - scrollPos) + rect.left + timelineStart] calls the
    callback once, with a value equal to [i*zoomUnit]; for a tick with
    [i*zoomUnit < scrollPos] the same click is ignored. *)
Theorem click_on_tick_roundtrip (cv : Canvas) (cb : Callback) (p : Props)
    (scale : Scale) (i : Z) :
  p_onClick p = Some cb ->
  let clientX := (mark_startValue scale i - p_scrollPos p)
                 + rect_left cv + timelineStart in
  let es := handleTimelineClick (Some cv) p scale clientX in
  (p_scrollPos p <= inject_Z i * zoomUnit scale ->
   exists v, callbacks es = [ v ] /\ v == inject_Z i * zoomUnit scale) /\
  (inject_Z i * zoomUnit scale < p_scrollPos p -> callbacks es = []).
Proof.
  only_named_constants.
  intros Hcb clientX es. subst es clientX. unfold mark_startValue. split.
  - intro H. rewrite (handleTimelineClick_accept cv cb) by (auto; lra).
    eexists. split; [reflexivity|]. ring.
  - intro H. rewrite (handleTimelineClick_ignore cv cb) by (auto; lra).
    reflexivity.
Qed.

Lemma handleTimelineClick_offsetX (canvas : option Canvas) (p : Props)
    (scale : Scale) (clickX o : Q) :
  handleTimelineClick canvas (set_offsetX p o) scale clickX
  = handleTimelineClick canvas p scale clickX.
Proof. reflexivity. Qed.

(** C10, as the code has it.  [handleTimelineClick] subtracts the constant
    [TIMELINE_OFFSET_X + TIMELINE_OFFSET_CANVAS_LEFT] and never reads
    [offsetX]: changing [offsetX] does not change what it does.  With the
    canvas there and the callback supplied, a click on the drawn position
    [pos = i*zoomUnit - scrollPos + offsetX] of tick [i] is accepted when
    [pos >= timelineStart] and then calls the callback with
    [i*zoomUnit + (offsetX - timelineStart)]; it is ignored when
    [pos < timelineStart].  A value it passes equals [i*zoomUnit] exactly
    when [offsetX] equals the constant. *)
Theorem click_ignores_offsetX (cv : Canvas) (cb : Callback) (p : Props)
    (scale : Scale) (i : Z) :
  p_onClick p = Some cb ->
  let pos := mark_startPos p scale (p_scrollPos p) i in
  let es := handleTimelineClick (Some cv) p scale (rect_left cv + pos) in
  (forall o x, handleTimelineClick (Some cv) (set_offsetX p o) scale x
               = handleTimelineClick (Some cv) p scale x) /\
  (timelineStart <= pos ->
   exists v, callbacks es = [ v ] /\
             v == inject_Z i * zoomUnit scale + (p_offsetX p - timelineStart)) /\
  (pos < timelineStart -> callbacks es = []) /\
  (forall v, In v (callbacks es) ->
     (v == inject_Z i * zoomUnit scale <-> p_offsetX p == timelineStart)).
Proof.
  only_named_constants.
  intros Hcb pos es. subst es.
  split; [intros o x; apply handleTimelineClick_offsetX|].
  assert (Hacc : timelineStart <= pos ->
    callbacks (handleTimelineClick (Some cv) p scale (rect_left cv + pos))
    = [ rect_left cv + pos - rect_left cv - timelineStart + p_scrollPos p ]).
  { intro H. rewrite (handleTimelineClick_accept cv cb) by (auto; lra).
    reflexivity. }
  assert (Hign : pos < timelineStart ->
    callbacks (handleTimelineClick (Some cv) p scale (rect_left cv + pos))
    = []).
  { intro H. rewrite (handleTimelineClick_ignore cv cb) by (auto; lra).
    reflexivity. }
  assert (Hval : rect_left cv + pos - rect_left cv - timelineStart
                   + p_scrollPos p
                 == inject_Z i * zoomUnit scale
                    + (p_offsetX p - timelineStart)).
  { unfold pos, mark_startPos, mark_startValue. ring. }
  split; [|split].
  - intro H. rewrite (Hacc H). eexists. split; [reflexivity | exact Hval].
  - exact Hign.
  - intros v Hv. destruct (Qlt_le_dec pos timelineStart) as [H|H].
    + rewrite (Hign H) in Hv. destruct Hv.
    + rewrite (Hacc H) in Hv. destruct Hv as [<-|[]].
      rewrite Hval. split; intro E; lra.
Qed.

(** ** The drag session *)

Lemma next_isDragging_click (canvas : option Canvas) (p : Props)
    (scale : Scale) (x : Q) (b : bool) :
  next_isDragging b (handleTimelineClick canvas p scale x) = b.
Proof.
  only_named_constants.
  unfold handleTimelineClick.
  destruct canvas; [destruct (p_onClick p)|]; try reflexivity.
  now destruct (Qle_bool _ _).
Qed.

Lemma commit_same (w : World) (es : list Effect) :
  next_isDragging (w_isDragging w) es = w_isDragging w -> commit w es = w.
Proof.
  only_named_constants.
  intro H. unfold commit. rewrite H. now rewrite Bool.eqb_reflx.
Qed.

Lemma step_press (w : World) (x : Q) :
  w_isDragging w = false ->
  step w (MouseDown x)
  = (drag_effect w true,
     handleMouseDown (w_canvas w) (w_props w) (w_scale w) x).
Proof.
  only_named_constants.
  intro H. unfold step, handlers, commit, handleMouseDown.
  cbn [next_isDragging fold_left].
  fold (next_isDragging true
          (handleTimelineClick (w_canvas w) (w_props w) (w_scale w) x)).
  rewrite next_isDragging_click, H. reflexivity.
Qed.

Lemma step_move (w : World) (x : Q) :
  step w (DocMouseMove x)
  = (w, flat_map (fun l => handleMouseMove (w_canvas w) (snd l) x)
                 (w_mousemove w)).
Proof.
  only_named_constants.
  unfold step, handlers. f_equal. apply commit_same.
  generalize (w_isDragging w) as b.
  induction (w_mousemove w) as [|l ls IH]; intro b; simpl; [reflexivity|].
  unfold next_isDragging. rewrite fold_left_app.
  fold (next_isDragging b (handleMouseMove (w_canvas w) (snd l) x)).
  assert (E : next_isDragging b (handleMouseMove (w_canvas w) (snd l) x) = b).
  { unfold handleMouseMove. destruct (mc_isDragging (snd l));
      [apply next_isDragging_click | reflexivity]. }
  rewrite E. apply IH.
Qed.

Lemma step_invariant (w : World) (ev : Event) :
  drag_invariant w -> drag_invariant (fst (step w ev)).
Proof.
  only_named_constants.
  unfold drag_invariant. intro Inv.
  destruct ev as [x|x| |props scale].
  - destruct (w_isDragging w) eqn:E.
    + unfold step, handlers, commit, handleMouseDown.
      cbn [next_isDragging fold_left].
      fold (next_isDragging true
              (handleTimelineClick (w_canvas w) (w_props w) (w_scale w) x)).
      rewrite next_isDragging_click, E. simpl. now rewrite E.
    + rewrite step_press by assumption. simpl.
      destruct Inv as (-> & ->). simpl. split; [|reflexivity].
      eexists. split; reflexivity.
  - rewrite step_move. exact Inv.
  - destruct (w_isDragging w) eqn:E.
    + destruct Inv as ((cl & Hm & Hcl) & Hu).
      unfold step, handlers, commit. rewrite Hu. simpl. rewrite E. simpl.
      rewrite Hm, Hu. simpl. rewrite Nat.eqb_refl. simpl. auto.
    + destruct Inv as (Hm & Hu).
      unfold step, handlers, commit. rewrite Hu. simpl. rewrite E. simpl.
      rewrite E. auto.
  - simpl. exact Inv.
Qed.

Lemma run_invariant (evs : list Event) (w : World) :
  drag_invariant w -> drag_invariant (fst (run w evs)).
Proof.
  only_named_constants.
  revert w. induction evs as [|ev evs IH]; intros w Inv; simpl; [assumption|].
  pose proof (step_invariant w ev Inv) as Inv1.
  destruct (step w ev) as [w1 es1]. simpl in Inv1.
  specialize (IH w1 Inv1).
  destruct (run w1 evs) as [w2 es2]. exact IH.
Qed.

Lemma run_app (evs1 evs2 : list Event) (w : World) :
  run w (evs1 ++ evs2)
  = (fst (run (fst (run w evs1)) evs2),
     snd (run w evs1) ++ snd (run (fst (run w evs1)) evs2)).
Proof.
  only_named_constants.
  revert w. induction evs1 as [|ev evs1 IH]; intro w; simpl.
  - now destruct (run w evs2).
  - destruct (step w ev) as [w1 es1]. rewrite IH.
    destruct (run w1 evs1) as [w2 es2]. simpl. now rewrite app_assoc.
Qed.

Lemma release_ends_session (w : World) :
  drag_invariant w ->
  w_isDragging (fst (step w DocMouseUp)) = false /\
  w_mousemove (fst (step w DocMouseUp)) = [] /\
  w_mouseup (fst (step w DocMouseUp)) = [].
Proof.
  only_named_constants.
  unfold drag_invariant. intro Inv.
  destruct (w_isDragging w) eqn:E.
  - destruct Inv as ((cl & Hm & Hcl) & Hu).
    unfold step, handlers, commit. rewrite Hu. simpl. rewrite E. simpl.
    rewrite Hm, Hu. simpl. rewrite Nat.eqb_refl. simpl. auto.
  - destruct Inv as (Hm & Hu).
    unfold step, handlers, commit. rewrite Hu. simpl. rewrite E. simpl. auto.
Qed.

Lemma moves_without_listeners (xs : list Q) (w : World) :
  w_mousemove w = [] -> run w (map DocMouseMove xs) = (w, []).
Proof.
  only_named_constants.
  intro H. induction xs as [|x xs IH]; [reflexivity|].
  cbn [map run]. rewrite step_move, H, IH. reflexivity.
Qed.

(** C4.  With the canvas there, the callback supplied, [scrollPos] zero,
    the left edge of the canvas at zero and a leading offset of 10: a
    press at 50 followed by document moves at 80 and at 30 calls the
    callback three times, with 40, 70 and 20 in that order.  And, whatever
    happened before, after a release the document holds no move and no
    release listener of the component, the session is idle, and document
    moves call nothing. *)
Theorem drag_session (p : Props) (scale : Scale) (cv : Canvas) (cb : Callback) :
  p_onClick p = Some cb ->
  p_scrollPos p == 0 -> rect_left cv == 0 -> timelineStart == 10 ->
  Forall2 Qeq
    (callbacks (snd (run (mount p scale (Some cv))
                         [ MouseDown 50; DocMouseMove 80; DocMouseMove 30 ])))
    [ 40; 70; 20 ] /\
  (forall (canvas : option Canvas) (evs : list Event) (xs : list Q),
     let w := fst (run (mount p scale canvas) (evs ++ [ DocMouseUp ])) in
     w_isDragging w = false /\ w_mousemove w = [] /\ w_mouseup w = [] /\
     snd (run w (map DocMouseMove xs)) = []).
Proof.
  only_named_constants.
  intros Hcb Hs Hl Ht. split.
  - cbn [run]. rewrite step_press by reflexivity.
    rewrite !step_move. cbn [drag_effect mount w_isDragging w_props w_scale
      w_canvas w_effect w_fresh w_mousemove w_mouseup filter app flat_map
      snd fst handleMouseMove mc_isDragging mc_props mc_scale].
    unfold handleMouseDown.
    rewrite !(handleTimelineClick_accept cv cb) by (auto; lra).
    cbn [callbacks flat_map app].
    repeat constructor; lra.
  - intros canvas evs xs w. subst w. rewrite run_app. cbn [fst snd].
    set (w0 := fst (run (mount p scale canvas) evs)).
    assert (Inv : drag_invariant w0).
    { apply run_invariant. unfold drag_invariant. simpl. auto. }
    cbn [run].
    destruct (release_ends_session w0 Inv) as (Hd & Hm & Hu).
    destruct (step w0 DocMouseUp) as [w1 es1]. cbn [fst snd] in *.
    repeat split; try assumption.
    now rewrite moves_without_listeners.
Qed.

(** * Further properties of the code *)

(** ** The visible range *)




(** ** The strokes *)

Lemma sub_fraction (scale : Scale) (j : Z) :
  (0 <= j < segments scale)%Z ->
  0 <= inject_Z j / inject_Z (segments scale) /\
  inject_Z j / inject_Z (segments scale) < 1.
Proof.
  only_named_constants.
  intro Hj.
  assert (Hseg : 0 < inject_Z (segments scale)).
  { change 0 with (inject_Z 0). rewrite <- Zlt_Qlt. lia. }
  assert (H0 : 0 <= inject_Z j).
  { change 0 with (inject_Z 0). rewrite <- Zle_Qle. lia. }
  assert (H1 : inject_Z j < inject_Z (segments scale)).
  { rewrite <- Zlt_Qlt. lia. }
  split.
  - apply Qle_shift_div_l; [assumption | lra].
  - apply Qlt_shift_div_r; [assumption | lra].
Qed.

Lemma sub_offset (scale : Scale) (j : Z) :
  0 < zoomUnit scale -> (0 <= j < segments scale)%Z ->
  0 <= inject_Z j / inject_Z (segments scale) * zoomUnit scale /\
  inject_Z j / inject_Z (segments scale) * zoomUnit scale < zoomUnit scale.
Proof.
  only_named_constants.
  intros Hzu Hj. destruct (sub_fraction scale j Hj) as (F0 & F1).
  set (f := inject_Z j / inject_Z (segments scale)) in *.
  assert (A : 0 <= f * zoomUnit scale) by (apply Qmult_le_0_compat; lra).
  assert (B : 0 < (1 - f) * zoomUnit scale)
    by (apply Qmult_lt_0_compat; lra).
  split; lra.
Qed.

Lemma In_marks_iter (p : Props) (scale : Scale) (scrollPos width : Q)
    (i : Z) (m : Mark) :
  In m (marks_iter p scale scrollPos width i) ->
  m_value m = (i + minRange scale scrollPos)%Z /\
  (0 <= m_sub m < segments scale)%Z /\
  m_pos m = mark_startPos p scale scrollPos (m_value m)
            + inject_Z (m_sub m) / inject_Z (segments scale)
              * zoomUnit scale.
Proof.
  only_named_constants.
  unfold marks_iter. intro H.
  destruct (i + minRange scale scrollPos <? 0)%Z; [destruct H|].
  unfold for_below in H. apply In_for_from in H as (j & Hj & H).
  apply In_mark_iter in H as (-> & -> & -> & _).
  repeat split; lia.
Qed.

Lemma for_from_sorted_in {A : Type} (R : A -> A -> Prop) (body : Z -> list A)
    (n : nat) (i : Z) :
  (forall k, (i <= k < i + Z.of_nat n)%Z -> StronglySorted R (body k)) ->
  (forall k k' x y,
     (i <= k)%Z -> (k < k')%Z -> (k' < i + Z.of_nat n)%Z ->
     In x (body k) -> In y (body k') -> R x y) ->
  StronglySorted R (for_from n i body).
Proof.
  only_named_constants.
  revert i. induction n as [|n IH]; intros i Hin Hacross; simpl;
    [constructor|].
  apply StronglySorted_app.
  - apply Hin. lia.
  - apply IH.
    + intros k Hk. apply Hin. lia.
    + intros k k' x y H1 H2 H3. apply Hacross; lia.
  - intros x y Hx Hy. apply In_for_from in Hy as (k & Hk & Hy).
    apply (Hacross i k); auto; lia.
Qed.

(** X2.  With [zoom > 0], [unit > 0] and a positive frame width, [draw]
    strokes the sub-ticks from left to right: in the order of the strokes
    the positions increase strictly, so no two strokes fall on the same
    position. *)
Theorem strokes_left_to_right (p : Props) (scale : Scale)
    (scrollPos width : Q) :
  0 < zoom scale -> 0 < unit scale -> 0 < PREVIEW_FRAME_WIDTH ->
  StronglySorted left_of (marks p scale scrollPos width).
Proof.
  only_named_constants.
  intros Hz Hu Hpfw.
  pose proof (zoomUnit_pos scale Hz Hu Hpfw) as Hzu.
  unfold marks, for_upto. apply for_from_sorted.
  - intro k. unfold marks_iter.
    destruct (k + minRange scale scrollPos <? 0)%Z; [constructor|].
    unfold for_below. apply for_from_sorted_in.
    + intros j _. unfold mark_iter. destruct (_ || _); repeat constructor.
    + intros j j' x y Hj0 Hjj Hj' Hx Hy.
      apply In_mark_iter in Hx as (_ & _ & Hx & _).
      apply In_mark_iter in Hy as (_ & _ & Hy & _).
      unfold left_of. rewrite Hx, Hy.
      assert (Hs : 0 < inject_Z (segments scale)).
      { change 0 with (inject_Z 0). rewrite <- Zlt_Qlt. lia. }
      assert (Hd : 0 < (inject_Z j' - inject_Z j)
                       / inject_Z (segments scale) * zoomUnit scale).
      { apply Qmult_lt_0_compat; [|assumption].
        apply Qlt_shift_div_l; [assumption|].
        assert (inject_Z j < inject_Z j') by (rewrite <- Zlt_Qlt; lia).
        lra. }
      assert (E : (inject_Z j' - inject_Z j) / inject_Z (segments scale)
                  * zoomUnit scale
                  == inject_Z j' / inject_Z (segments scale) * zoomUnit scale
                     - inject_Z j / inject_Z (segments scale)
                       * zoomUnit scale).
      { field. intro H. rewrite H in Hs. now apply Qlt_irrefl in Hs. }
      lra.
  - intros k k' x y Hk Hx Hy.
    apply In_marks_iter in Hx as (Hxv & Hxj & Hx).
    apply In_marks_iter in Hy as (Hyv & Hyj & Hy).
    unfold left_of. rewrite Hx, Hy.
    destruct (sub_offset scale (m_sub x) Hzu Hxj) as (_ & X1).
    destruct (sub_offset scale (m_sub y) Hzu Hyj) as (Y0 & _).
    unfold mark_startPos, mark_startValue.
    assert (Hv : inject_Z (m_value x) + 1 <= inject_Z (m_value y)).
    { change 1 with (inject_Z 1). rewrite <- inject_Z_plus, <- Zle_Qle. lia. }
    assert (A : 0 <= (inject_Z (m_value y) - inject_Z (m_value x) - 1)
                     * zoomUnit scale)
      by (apply Qmult_le_0_compat; lra).
    lra.
Qed.



(** ** The labels *)


(** ** The reported positions *)

Lemma callbacks_click (canvas : option Canvas) (p : Props) (scale : Scale)
    (x : Q) :
  callbacks (handleTimelineClick canvas p scale x) = []
  \/ exists cv cb,
       canvas = Some cv /\ p_onClick p = Some cb /\
       0 <= x - rect_left cv - timelineStart /\
       callbacks (handleTimelineClick canvas p scale x)
       = [ x - rect_left cv - timelineStart + p_scrollPos p ].
Proof.
  only_named_constants.
  unfold handleTimelineClick.
  destruct canvas as [cv|]; [|now left].
  destruct (p_onClick p) as [cb|]; [|now left].
  destruct (Qle_bool 0 (x - rect_left cv - timelineStart)) eqn:E;
    [|now left].
  right. exists cv, cb. apply Qle_bool_iff in E. auto.
Qed.



(** X7.  With [offsetX] left to its default, the ruler and the clicks
    agree on every stroke: a click on a stroked sub-tick [(value, j)] whose
    position is at or right of the timeline start reports
    [(value + j/segments) * zoomUnit], the place of the sub-tick on the
    timeline; a click on a stroke left of the timeline start reports
    nothing. *)
Theorem click_on_stroke_default (props : RulerProps) (scale : Scale)
    (cv : Canvas) (cb : Callback) (width : Q) (m : Mark) :
  offsetX props = None -> onClick props = Some cb ->
  let p := destructure props in
  In m (marks p scale (p_scrollPos p) width) ->
  let es := handleTimelineClick (Some cv) p scale (rect_left cv + m_pos m) in
  (timelineStart <= m_pos m ->
   exists v, callbacks es = [ v ] /\
             v == (inject_Z (m_value m)
                   + inject_Z (m_sub m) / inject_Z (segments scale))
                  * zoomUnit scale) /\
  (m_pos m < timelineStart -> callbacks es = []).
Proof.
  only_named_constants.
  intros Hoff Hcb p Hm es. subst es.
  assert (Hcb' : p_onClick p = Some cb) by exact Hcb.
  assert (Hoff' : p_offsetX p = timelineStart).
  { unfold p, destructure. simpl. now rewrite Hoff. }
  apply In_marks in Hm as (_ & _ & _ & Hpos & _).
  split.
  - intro H. rewrite (handleTimelineClick_accept cv cb) by (auto; lra).
    eexists. split; [reflexivity|].
    rewrite Hpos. unfold mark_startPos, mark_startValue.
    rewrite Hoff'. ring.
  - intro H. rewrite (handleTimelineClick_ignore cv cb) by (auto; lra).
    reflexivity.
Qed.

(** ** The listeners on the document *)

Lemma mount_invariant (p : Props) (scale : Scale) (canvas : option Canvas) :
  drag_invariant (mount p scale canvas).
Proof.
  only_named_constants.
  unfold drag_invariant. simpl. auto.
Qed.

(** X8.  Listeners never pile up: after any sequence of events the document
    holds at most one move and one release listener of the component, and
    none exactly when the component is not dragging; so one pointer move
    reports at most one position. *)
Theorem listeners_never_accumulate (p : Props) (scale : Scale)
    (canvas : option Canvas) (evs : list Event) :
  let w := fst (run (mount p scale canvas) evs) in
  (List.length (w_mousemove w) <= 1)%nat /\
  (List.length (w_mouseup w) <= 1)%nat /\
  (w_isDragging w = false <-> w_mousemove w = [] /\ w_mouseup w = []) /\
  forall x,
    (List.length (callbacks (snd (step w (DocMouseMove x)))) <= 1)%nat.
Proof.
  only_named_constants.
  intro w.
  assert (Inv : drag_invariant w)
    by (apply run_invariant, mount_invariant).
  unfold drag_invariant in Inv.
  assert (Hc : forall c q sc y,
            (List.length (callbacks (handleTimelineClick c q sc y)) <= 1)%nat).
  { intros c q sc y.
    destruct (callbacks_click c q sc y) as [->|(? & ? & _ & _ & _ & ->)];
      simpl; lia. }
  destruct (w_isDragging w) eqn:E.
  - destruct Inv as ((cl & Hm & Hcl) & Hu).
    rewrite Hm, Hu. cbn [List.length].
    split; [lia|]. split; [lia|]. split.
    + split; [discriminate | intros (H & _); discriminate H].
    + intro x. rewrite step_move, Hm. simpl.
      unfold handleMouseMove. rewrite Hcl, app_nil_r. apply Hc.
  - destruct Inv as (Hm & Hu). rewrite Hm, Hu. cbn [List.length].
    split; [lia|]. split; [lia|]. split; [tauto|].
    intro x. rewrite step_move, Hm. simpl. lia.
Qed.

Lemma dragging_step (w : World) (ev : Event) (id : nat) (cl : MoveClosure) :
  w_isDragging w = true -> w_mousemove w = [ (id, cl) ] ->
  is_release ev = false ->
  w_isDragging (fst (step w ev)) = true /\
  w_mousemove (fst (step w ev)) = [ (id, cl) ] /\
  w_canvas (fst (step w ev)) = w_canvas w.
Proof.
  only_named_constants.
  intros Hd Hm Hev. destruct ev as [x|x| |props sc]; try discriminate Hev.
  - unfold step, handlers, commit, handleMouseDown.
    cbn [next_isDragging fold_left].
    fold (next_isDragging true
            (handleTimelineClick (w_canvas w) (w_props w) (w_scale w) x)).
    rewrite next_isDragging_click, Hd. simpl. auto.
  - rewrite step_move. auto.
  - simpl. auto.
Qed.

Lemma dragging_run (evs : list Event) (w : World) (id : nat)
    (cl : MoveClosure) :
  w_isDragging w = true -> w_mousemove w = [ (id, cl) ] ->
  forallb (fun ev => negb (is_release ev)) evs = true ->
  w_isDragging (fst (run w evs)) = true /\
  w_mousemove (fst (run w evs)) = [ (id, cl) ] /\
  w_canvas (fst (run w evs)) = w_canvas w.
Proof.
  only_named_constants.
  revert w. induction evs as [|ev evs IH]; intros w Hd Hm Hevs;
    [simpl; auto|].
  simpl in Hevs. apply andb_true_iff in Hevs as (Hev & Hevs).
  apply negb_true_iff in Hev.
  destruct (dragging_step w ev id cl Hd Hm Hev) as (Hd1 & Hm1 & Hc1).
  cbn [run]. destruct (step w ev) as [w1 es1]. cbn [fst] in *.
  specialize (IH w1 Hd1 Hm1 Hevs).
  destruct (run w1 evs) as [w2 es2]. cbn [fst] in *.
  rewrite <- Hc1. exact IH.
Qed.

(** X9.  A drag keeps the props of the press: from an idle component,
    after a press and any events without a release (moves, further
    presses, renders with new props or a new scale), a pointer move is
    mapped by the [handleTimelineClick] of the render of the press, with
    its [scrollPos], callback and scale, not with the current ones. *)
Theorem drag_keeps_press_props (w : World) (x0 : Q) (evs : list Event)
    (x : Q) :
  drag_invariant w -> w_isDragging w = false ->
  forallb (fun ev => negb (is_release ev)) evs = true ->
  snd (step (fst (run w (MouseDown x0 :: evs))) (DocMouseMove x))
  = handleTimelineClick (w_canvas w) (w_props w) (w_scale w) x.
Proof.
  only_named_constants.
  intros Inv Hd Hevs.
  cbn [run]. rewrite step_press by assumption.
  set (w1 := drag_effect w true).
  unfold drag_invariant in Inv. rewrite Hd in Inv. destruct Inv as (Hm & Hu).
  assert (Hm1 : w_mousemove w1
                = [ (w_fresh w,
                     {| mc_isDragging := true; mc_props := w_props w;
                        mc_scale := w_scale w |}) ]).
  { unfold w1, drag_effect. simpl. now rewrite Hm. }
  destruct (dragging_run evs w1 _ _ eq_refl Hm1 Hevs) as (_ & Hm2 & Hc2).
  destruct (run w1 evs) as [w2 es2]. cbn [fst] in *.
  rewrite step_move, Hm2. simpl. rewrite app_nil_r.
  unfold handleMouseMove. simpl. now rewrite Hc2.
Qed.

Lemma dragging_moves (xs : list Q) (w : World) (id : nat) (cl : MoveClosure) :
  w_mousemove w = [ (id, cl) ] -> mc_isDragging cl = true ->
  run w (map DocMouseMove xs)
  = (w, flat_map (handleTimelineClick (w_canvas w) (mc_props cl) (mc_scale cl))
                 xs).
Proof.
  only_named_constants.
  intros Hm Hcl. induction xs as [|x xs IH]; [reflexivity|].
  cbn [map run]. rewrite step_move, IH, Hm. simpl.
  unfold handleMouseMove. now rewrite Hcl, app_nil_r.
Qed.

(** X10.  A whole gesture on an idle component, press at [x0], moves at
    [xs], release: the callback is called for the accepted positions among
    [x0 :: xs], in order, each mapped by [handleTimelineClick]; and the
    component ends idle, with no listener left on the document. *)
Theorem gesture_reports_in_order (w : World) (x0 : Q) (xs : list Q) :
  drag_invariant w -> w_isDragging w = false ->
  let r := run w (MouseDown x0 :: map DocMouseMove xs ++ [ DocMouseUp ]) in
  callbacks (snd r)
  = callbacks (flat_map (handleTimelineClick (w_canvas w) (w_props w)
                                             (w_scale w))
                        (x0 :: xs)) /\
  w_isDragging (fst r) = false /\
  w_mousemove (fst r) = [] /\ w_mouseup (fst r) = [].
Proof.
  only_named_constants.
  intros Inv Hd r. subst r.
  pose proof (step_invariant w (MouseDown x0) Inv) as Inv1.
  cbn [run]. rewrite step_press in * by assumption. cbn [fst] in Inv1.
  set (w1 := drag_effect w true) in *.
  unfold drag_invariant in Inv. rewrite Hd in Inv. destruct Inv as (Hm & Hu).
  assert (Hm1 : w_mousemove w1
                = [ (w_fresh w,
                     {| mc_isDragging := true; mc_props := w_props w;
                        mc_scale := w_scale w |}) ]).
  { unfold w1, drag_effect. simpl. now rewrite Hm. }
  rewrite run_app, (dragging_moves xs w1 _ _ Hm1 eq_refl).
  cbn [fst snd run].
  destruct (release_ends_session w1 Inv1) as (Hd2 & Hm2 & Hu2).
  assert (Hes : snd (step w1 DocMouseUp) = [ SetIsDragging false ]).
  { unfold step, handlers. simpl. rewrite Hu. reflexivity. }
  destruct (step w1 DocMouseUp) as [w2 es2]. cbn [fst snd] in *.
  subst es2. split; [|auto].
  unfold handleMouseDown. cbn [flat_map].
  unfold callbacks at 1. cbn [flat_map app].
  fold (callbacks (handleTimelineClick (w_canvas w) (w_props w) (w_scale w) x0
                   ++ flat_map (handleTimelineClick (w_canvas w1)
                                  (w_props w) (w_scale w)) xs
                   ++ [SetIsDragging false])).
  unfold callbacks. rewrite !flat_map_app. simpl.
  now rewrite app_nil_r.
Qed.

(** X11.  Unmounting removes the listeners: after any sequence of events,
    the cleanup of the effect leaves no move and no release listener of the
    component on the document, so that later pointer moves and releases
    run no handler. *)
Theorem unmount_removes_listeners (p : Props) (scale : Scale)
    (canvas : option Canvas) (evs : list Event) (xs : list Q) :
  let w := unmount (fst (run (mount p scale canvas) evs)) in
  w_mousemove w = [] /\ w_mouseup w = [] /\
  snd (run w (map DocMouseMove xs)) = [] /\
  snd (step w DocMouseUp) = [].
Proof.
  only_named_constants.
  intro w.
  assert (Inv : drag_invariant (fst (run (mount p scale canvas) evs)))
    by (apply run_invariant, mount_invariant).
  assert (H : w_mousemove w = [] /\ w_mouseup w = []).
  { unfold w, unmount. simpl. unfold drag_invariant in Inv.
    destruct (w_isDragging (fst (run (mount p scale canvas) evs))).
    - destruct Inv as ((cl & -> & _) & ->). simpl.
      now rewrite Nat.eqb_refl.
    - destruct Inv as (-> & ->). auto. }
  destruct H as (Hm & Hu).
  split; [exact Hm|]. split; [exact Hu|]. split.
  - now rewrite moves_without_listeners.
  - unfold step, handlers. rewrite Hu. reflexivity.
Qed.

(** ** Mounting *)

Lemma canvas_after_redraw (cv : Canvas) (ctx : Context) (w h : Q)
    (ops : list CanvasOp) (size : CanvasSize) :
  canvas_after cv ([ SetCanvasWidth w; SetCanvasHeight h ]
                   ++ map (Paint ctx) ops ++ [ SetCanvasSize size ])
  = {| offsetParent := offsetParent cv; offsetWidth := offsetWidth cv;
       rect_left := rect_left cv; buf_width := w; buf_height := h;
       bitmap := ops |}.
Proof.
  only_named_constants.
  unfold canvas_after. rewrite !fold_left_app.
  fold (canvas_after (fold_left canvas_effect
                        [SetCanvasWidth w; SetCanvasHeight h] cv)
                     (map (Paint ctx) ops)).
  rewrite canvas_after_paint. reflexivity.
Qed.

Lemma canvasSize_after_redraw (size0 size : CanvasSize) (ctx : Context)
    (w h : Q) (ops : list CanvasOp) :
  canvasSize_after size0 ([ SetCanvasWidth w; SetCanvasHeight h ]
                          ++ map (Paint ctx) ops ++ [ SetCanvasSize size ])
  = size.
Proof.
  only_named_constants.
  unfold canvasSize_after. rewrite !fold_left_app. reflexivity.
Qed.

(** X12.  The first two renders.  Without a canvas, or when the canvas
    gives no 2d context, nothing is assigned and nothing is drawn.
    Otherwise the component resizes and draws twice, with the same width
    (of the container), the same height (the configured one) and the same
    commands; since assigning the size resets the buffer, the canvas ends
    up holding the drawing once, and [canvasSize] holds that width and
    height. *)
Theorem mount_draws_twice_shows_once (p : Props) (scale : Scale)
    (canvas : option Canvas) (getContext : Canvas -> option Context) :
  let es := first_renders p scale canvas getContext in
  match canvas with
  | None => es = []
  | Some cv =>
      match getContext cv with
      | None => es = []
      | Some ctx =>
          let w := container_width cv in
          let h := p_height p in
          let ops := draw p scale (p_scrollPos p) w h in
          let once := [ SetCanvasWidth w; SetCanvasHeight h ]
                      ++ map (Paint ctx) ops
                      ++ [ SetCanvasSize {| cs_width := w; cs_height := h |} ] in
          es = once ++ once /\
          canvas_after cv es = canvas_after cv once /\
          buf_width (canvas_after cv es) = w /\
          buf_height (canvas_after cv es) = h /\
          bitmap (canvas_after cv es) = ops /\
          canvasSize_after (initial_canvasSize p) es
            = {| cs_width := w; cs_height := h |}
      end
  end.
Proof.
  only_named_constants.
  intro es. subst es. unfold first_renders, mount_effect.
  destruct canvas as [cv|]; [|reflexivity].
  destruct (getContext cv) as [ctx|]; [|reflexivity].
  pose (w := container_width cv). pose (h := p_height p).
  pose (ops := draw p scale (p_scrollPos p) w h).
  pose (once := [ SetCanvasWidth w; SetCanvasHeight h ]
                ++ map (Paint ctx) ops
                ++ [ SetCanvasSize {| cs_width := w; cs_height := h |} ]).
  cbn [update_effect app].
  change (resize p scale (initial_canvasSize p) (Some cv) (Some ctx)
                 (p_scrollPos p)) with once.
  rewrite !app_nil_r.
  assert (Hsize : canvasSize_after (initial_canvasSize p) once
                  = {| cs_width := w; cs_height := h |})
    by apply canvasSize_after_redraw.
  assert (Hcv : canvas_after cv once
                = {| offsetParent := offsetParent cv;
                     offsetWidth := offsetWidth cv;
                     rect_left := rect_left cv; buf_width := w;
                     buf_height := h; bitmap := ops |})
    by apply canvas_after_redraw.
  rewrite Hsize. cbn [option_map]. rewrite Hcv.
  change (resize p scale {| cs_width := w; cs_height := h |}
            (Some {| offsetParent := offsetParent cv;
                     offsetWidth := offsetWidth cv;
                     rect_left := rect_left cv; buf_width := w;
                     buf_height := h; bitmap := ops |})
            (Some ctx) (p_scrollPos p)) with once.
  assert (Hcv2 : canvas_after cv (once ++ once) = canvas_after cv once).
  { unfold canvas_after at 1. rewrite fold_left_app.
    fold (canvas_after cv once). rewrite Hcv.
    fold (canvas_after
            {| offsetParent := offsetParent cv; offsetWidth := offsetWidth cv;
               rect_left := rect_left cv; buf_width := w; buf_height := h;
               bitmap := ops |} once).
    unfold once. rewrite canvas_after_redraw. reflexivity. }
  split; [reflexivity|]. split; [exact Hcv2|].
  rewrite Hcv2, Hcv. cbn [buf_width buf_height bitmap].
  repeat split.
  unfold canvasSize_after. rewrite fold_left_app.
  fold (canvasSize_after (initial_canvasSize p) once). rewrite Hsize.
  fold (canvasSize_after {| cs_width := w; cs_height := h |} once).
  apply canvasSize_after_redraw.
Qed.

(** ** Scrolling by whole ticks *)

Lemma Qfloor_unique (n : Z) (y : Q) :
  inject_Z n <= y -> y < inject_Z (n + 1) -> Qfloor y = n.
Proof.
  only_named_constants.
  intros H1 H2.
  pose proof (Qfloor_le y) as F1. pose proof (Qlt_floor y) as F2.
  assert (A : inject_Z (Qfloor y) < inject_Z (n + 1)) by lra.
  assert (B : inject_Z n < inject_Z (Qfloor y + 1)) by lra.
  rewrite <- Zlt_Qlt in A, B. lia.
Qed.

Lemma Qfloor_shift (x : Q) (k : Z) :
  Qfloor (x + inject_Z k) = (Qfloor x + k)%Z.
Proof.
  only_named_constants.
  pose proof (Qfloor_le x) as F1. pose proof (Qlt_floor x) as F2.
  apply Qfloor_unique.
  - rewrite inject_Z_plus. lra.
  - rewrite !inject_Z_plus in *. lra.
Qed.

Lemma Qceiling_shift (x : Q) (k : Z) :
  Qceiling (x + inject_Z k) = (Qceiling x + k)%Z.
Proof.
  only_named_constants.
  unfold Qceiling.
  assert (E : - (x + inject_Z k) == - x + inject_Z (- k)).
  { rewrite inject_Z_opp. ring. }
  rewrite (Qfloor_comp _ _ E), Qfloor_shift. lia.
Qed.

Lemma for_from_Forall2 {A : Type} (R : A -> A -> Prop) (f g : Z -> list A)
    (n : nat) (i : Z) :
  (forall k, (i <= k < i + Z.of_nat n)%Z -> Forall2 R (f k) (g k)) ->
  Forall2 R (for_from n i f) (for_from n i g).
Proof.
  only_named_constants.
  revert i. induction n as [|n IH]; intros i H; simpl; [constructor|].
  apply Forall2_app; [apply H; lia|].
  apply IH. intros k Hk. apply H. lia.
Qed.

Lemma range_shift (scale : Scale) (scrollPos width : Q) (k : Z) :
  0 < zoomUnit scale ->
  let scrollPos' := scrollPos + inject_Z k * zoomUnit scale in
  minRange scale scrollPos' = (minRange scale scrollPos + k)%Z /\
  maxRange scale scrollPos' width = (maxRange scale scrollPos width + k)%Z /\
  length scale scrollPos' width = length scale scrollPos width.
Proof.
  only_named_constants.
  intros Hzu s'.
  assert (Hnz : ~ zoomUnit scale == 0).
  { intro H. rewrite H in Hzu. now apply Qlt_irrefl in Hzu. }
  assert (E1 : s' / zoomUnit scale
               == scrollPos / zoomUnit scale + inject_Z k)
    by (unfold s'; now field).
  assert (E2 : (s' + width) / zoomUnit scale
               == (scrollPos + width) / zoomUnit scale + inject_Z k)
    by (unfold s'; now field).
  assert (Hmin : minRange scale s' = (minRange scale scrollPos + k)%Z).
  { unfold minRange. now rewrite (Qfloor_comp _ _ E1), Qfloor_shift. }
  assert (Hmax : maxRange scale s' width
                 = (maxRange scale scrollPos width + k)%Z).
  { unfold maxRange. now rewrite (Qceiling_comp _ _ E2), Qceiling_shift. }
  split; [exact Hmin|]. split; [exact Hmax|].
  unfold length. rewrite Hmin, Hmax. lia.
Qed.

Lemma mark_iter_shift (p : Props) (scale : Scale) (width : Q)
    (value j k : Z) (startPos startPos' : Q) :
  startPos' == startPos ->
  Forall2 (same_stroke k)
    (mark_iter p scale width value startPos j)
    (mark_iter p scale width (value + k) startPos' j).
Proof.
  only_named_constants.
  intro E. unfold mark_iter.
  set (d := inject_Z j / inject_Z (segments scale) * zoomUnit scale).
  assert (Ep : startPos' + d == startPos + d) by (rewrite E; reflexivity).
  assert (B1 : Qltb (startPos' + d) 0 = Qltb (startPos + d) 0).
  { unfold Qltb. f_equal. now apply Qleb_comp. }
  assert (B2 : Qle_bool width (startPos' + d)
               = Qle_bool width (startPos + d)).
  { now apply Qleb_comp. }
  rewrite B1, B2.
  destruct (_ || _); constructor; [|constructor].
  unfold same_stroke. simpl. repeat split; auto.
Qed.

(** X13.  Scrolling by whole ticks leaves the picture of the strokes as it
    was.  With [zoom > 0], [unit > 0], a positive frame width and both
    scroll positions non-negative: at [scrollPos + k*zoomUnit] the loops
    visit the indices shifted by [k], and [draw] strokes the same number
    of sub-ticks, in the same order, at equal positions and with the same
    length and colour, each with its index shifted by [k]. *)
Theorem scroll_by_whole_ticks (p : Props) (scale : Scale)
    (scrollPos width : Q) (k : Z) :
  0 < zoom scale -> 0 < unit scale -> 0 < PREVIEW_FRAME_WIDTH ->
  0 <= scrollPos -> 0 <= scrollPos + inject_Z k * zoomUnit scale ->
  let scrollPos' := scrollPos + inject_Z k * zoomUnit scale in
  minRange scale scrollPos' = (minRange scale scrollPos + k)%Z /\
  maxRange scale scrollPos' width = (maxRange scale scrollPos width + k)%Z /\
  Forall2 (same_stroke k) (marks p scale scrollPos width)
                          (marks p scale scrollPos' width).
Proof.
  only_named_constants.
  intros Hz Hu Hpfw Hs Hs' s'.
  pose proof (zoomUnit_pos scale Hz Hu Hpfw) as Hzu.
  destruct (range_shift scale scrollPos width k Hzu) as (Hmin & Hmax & Hlen).
  fold s' in Hmin, Hmax, Hlen.
  split; [exact Hmin|]. split; [exact Hmax|].
  assert (Hnz : ~ zoomUnit scale == 0).
  { intro H. rewrite H in Hzu. now apply Qlt_irrefl in Hzu. }
  assert (M0 : (0 <= minRange scale scrollPos)%Z).
  { unfold minRange. change 0%Z with (Qfloor 0). apply Qfloor_resp_le.
    apply Qle_shift_div_l; [assumption | lra]. }
  assert (M0' : (0 <= minRange scale s')%Z).
  { unfold minRange. change 0%Z with (Qfloor 0). apply Qfloor_resp_le.
    apply Qle_shift_div_l; [assumption | unfold s'; lra]. }
  unfold marks, for_upto. rewrite Hlen.
  apply for_from_Forall2. intros i Hi.
  unfold marks_iter. rewrite Hmin.
  destruct (Z.ltb_spec (i + minRange scale scrollPos) 0) as [|_]; [lia|].
  destruct (Z.ltb_spec (i + (minRange scale scrollPos + k)) 0) as [|_];
    [lia|].
  unfold for_below. apply for_from_Forall2. intros j _.
  replace (i + (minRange scale scrollPos + k))%Z
    with (i + minRange scale scrollPos + k)%Z by lia.
  apply mark_iter_shift.
  unfold mark_startPos, mark_startValue, s'. rewrite inject_Z_plus. ring.
Qed.

(** ** Without a callback *)

Lemma click_without_callback (canvas : option Canvas) (p : Props)
    (scale : Scale) (x : Q) :
  p_onClick p = None -> handleTimelineClick canvas p scale x = [].
Proof.
  only_named_constants.
  intro H. unfold handleTimelineClick. rewrite H. now destruct canvas.
Qed.

Lemma moves_without_callback (canvas : option Canvas) (x : Q)
    (ls : list (nat * MoveClosure)) :
  Forall (fun l => p_onClick (mc_props (snd l)) = None) ls ->
  flat_map (fun l => handleMouseMove canvas (snd l) x) ls = [].
Proof.
  only_named_constants.
  induction 1 as [|l ls Hl _ IH]; [reflexivity|].
  simpl. rewrite IH, app_nil_r. unfold handleMouseMove.
  destruct (mc_isDragging (snd l)); [|reflexivity].
  now apply click_without_callback.
Qed.

Lemma drag_effect_callback_free (w : World) (b : bool) :
  callback_free w -> callback_free (drag_effect w b).
Proof.
  only_named_constants.
  intros (Hp & Hl). split; [exact Hp|].
  assert (Hf : Forall (fun l => p_onClick (mc_props (snd l)) = None)
                 (filter (fun l => negb (fst l =? w_effect w)%nat)
                         (w_mousemove w))).
  { apply Forall_forall. intros l Hin. apply filter_In in Hin as (Hin & _).
    rewrite Forall_forall in Hl. now apply Hl. }
  unfold drag_effect. cbn [w_mousemove].
  destruct b; [|exact Hf].
  apply Forall_app. split; [exact Hf|]. constructor; [exact Hp|constructor].
Qed.

Lemma step_callback_free (w : World) (ev : Event) :
  callback_free w -> lacks_callback ev = true ->
  callback_free (fst (step w ev)) /\ callbacks (snd (step w ev)) = [].
Proof.
  only_named_constants.
  intros Hw Hev. pose proof Hw as (Hp & Hl).
  assert (Hcommit : forall es, callback_free (commit w es)).
  { intro es. unfold commit.
    destruct (Bool.eqb _ _); [exact Hw | now apply drag_effect_callback_free]. }
  destruct ev as [x|x| |props sc].
  - unfold step. cbn [fst snd]. split; [apply Hcommit|].
    unfold handlers, handleMouseDown.
    now rewrite click_without_callback.
  - rewrite step_move. cbn [fst snd]. split; [exact Hw|].
    now rewrite moves_without_callback.
  - unfold step. cbn [fst snd]. split; [apply Hcommit|].
    unfold handlers, handleMouseUp.
    induction (w_mouseup w); [reflexivity | exact IHl].
  - simpl in Hev. unfold step. cbn [fst snd]. split; [|reflexivity].
    split; [|exact Hl].
    cbn [w_props]. unfold destructure. cbn [p_onClick].
    now destruct (onClick props).
Qed.

(** X14.  Without a callback nothing is ever reported, yet the drag
    session runs all the same: when the component is mounted without
    [onClick] and no later render supplies one, no sequence of presses,
    moves and releases calls anything, while a press still starts a
    session (and registers the listeners on the document). *)
Theorem no_callback_no_report (p : Props) (scale : Scale)
    (canvas : option Canvas) (evs : list Event) (x : Q) :
  p_onClick p = None ->
  forallb lacks_callback evs = true ->
  callbacks (snd (run (mount p scale canvas) evs)) = [] /\
  w_isDragging
    (fst (run (mount p scale canvas) (evs ++ [ DocMouseUp; MouseDown x ])))
  = true.
Proof.
  only_named_constants.
  intros Hp Hevs. split.
  - assert (H0 : callback_free (mount p scale canvas))
      by (split; [exact Hp | constructor]).
    revert H0. generalize (mount p scale canvas) as w.
    induction evs as [|ev evs IH]; intros w Hw; [reflexivity|].
    simpl in Hevs. apply andb_true_iff in Hevs as (Hev & Hevs).
    destruct (step_callback_free w ev Hw Hev) as (Hw1 & Hc1).
    cbn [run]. destruct (step w ev) as [w1 es1]. cbn [fst snd] in *.
    specialize (IH Hevs w1 Hw1).
    destruct (run w1 evs) as [w2 es2]. cbn [snd] in *.
    unfold callbacks in *. now rewrite flat_map_app, Hc1, IH.
  - rewrite run_app. cbn [fst].
    set (w0 := fst (run (mount p scale canvas) evs)).
    assert (Inv : drag_invariant w0)
      by (apply run_invariant, mount_invariant).
    destruct (release_ends_session w0 Inv) as (Hd & _).
    cbn [run]. destruct (step w0 DocMouseUp) as [w1 es1]. cbn [fst] in *.
    rewrite step_press by assumption. reflexivity.
Qed.

End Ruler.

(** * The statements at sample inputs *)

Lemma draw_ticks_within_slack_sample :
  (0 <= 0 /\ 0 <= 500 /\ 0 < zoom sample_scale /\ 0 < unit sample_scale /\
   (1 <= segments sample_scale)%Z /\ 0 < SAMPLE_FRAME_WIDTH) /\
  (forall m,
     In m (marks SAMPLE_FRAME_WIDTH (sample_props 0 10) sample_scale 0 500) ->
     - zoomUnit SAMPLE_FRAME_WIDTH sample_scale <= m_pos m /\
     m_pos m <= 500 + zoomUnit SAMPLE_FRAME_WIDTH sample_scale /\
     (0 <= m_value m)%Z).
Proof.
  assert (H1 : 0 <= 0) by (unfold Qle; simpl; lia).
  assert (H2 : 0 <= 500) by (unfold Qle; simpl; lia).
  assert (H3 : 0 < zoom sample_scale) by reflexivity.
  assert (H4 : 0 < unit sample_scale) by reflexivity.
  assert (H5 : (1 <= segments sample_scale)%Z) by (simpl; lia).
  assert (H6 : 0 < SAMPLE_FRAME_WIDTH) by reflexivity.
  split; [repeat split; assumption|].
  apply (draw_ticks_within_slack SAMPLE_FRAME_WIDTH 11 "Inter" sample_measure
           (sample_props 0 10) sample_scale 0 500 40 H1 H2 H3 H4 H5 H6).
Defined.

Lemma label_anchor_agrees_with_stroke_sample :
  0 < zoom sample_scale /\
  label_startPos SAMPLE_FRAME_WIDTH sample_scale 30 2
    == inject_Z 2 * zoomUnit SAMPLE_FRAME_WIDTH sample_scale - 30.
Proof.
  split; [reflexivity|].
  apply (label_anchor_agrees_with_stroke SAMPLE_FRAME_WIDTH sample_measure
           (sample_props 30 10) sample_scale 30 500 2).
  reflexivity.
Defined.



Lemma click_on_tick_roundtrip_sample :
  p_onClick (sample_props 30 10) = Some 7%nat /\
  exists v,
    callbacks
      (handleTimelineClick SAMPLE_OFFSET_X SAMPLE_OFFSET_CANVAS_LEFT
         (Some sample_canvas) (sample_props 30 10) sample_scale
         (mark_startValue SAMPLE_FRAME_WIDTH sample_scale 2 - 30
          + rect_left sample_canvas
          + timelineStart SAMPLE_OFFSET_X SAMPLE_OFFSET_CANVAS_LEFT))
    = [ v ] /\
    v == inject_Z 2 * zoomUnit SAMPLE_FRAME_WIDTH sample_scale.
Proof.
  split; [reflexivity|].
  apply (click_on_tick_roundtrip SAMPLE_FRAME_WIDTH SAMPLE_OFFSET_X
           SAMPLE_OFFSET_CANVAS_LEFT sample_canvas 7%nat (sample_props 30 10)
           sample_scale 2).
  - reflexivity.
  - vm_compute. discriminate.
Defined.

Lemma click_ignores_offsetX_sample :
  p_onClick (sample_props 0 25) = Some 7%nat /\
  exists v,
    callbacks
      (handleTimelineClick SAMPLE_OFFSET_X SAMPLE_OFFSET_CANVAS_LEFT
         (Some sample_canvas) (sample_props 0 25) sample_scale
         (rect_left sample_canvas
          + mark_startPos SAMPLE_FRAME_WIDTH (sample_props 0 25)
                          sample_scale 0 1))
    = [ v ] /\
    v == inject_Z 1 * zoomUnit SAMPLE_FRAME_WIDTH sample_scale
         + (25 - timelineStart SAMPLE_OFFSET_X SAMPLE_OFFSET_CANVAS_LEFT).
Proof.
  split; [reflexivity|].
  apply (click_ignores_offsetX SAMPLE_FRAME_WIDTH SAMPLE_OFFSET_X
           SAMPLE_OFFSET_CANVAS_LEFT sample_canvas 7%nat (sample_props 0 25)
           sample_scale 1).
  - reflexivity.
  - vm_compute. discriminate.
Defined.

Lemma drag_session_sample :
  Forall2 Qeq
    (callbacks
       (snd (run SAMPLE_OFFSET_X SAMPLE_OFFSET_CANVAS_LEFT (fun _ => "0:00"%string)
               (mount (sample_props 0 10) sample_scale (Some sample_canvas))
               [ MouseDown 50; DocMouseMove 80; DocMouseMove 30 ])))
    [ 40; 70; 20 ].
Proof.
  apply (drag_session SAMPLE_OFFSET_X SAMPLE_OFFSET_CANVAS_LEFT
           (fun _ => "0:00"%string) (sample_props 0 10) sample_scale
           sample_canvas 7%nat).
  - reflexivity.
  - reflexivity.
  - reflexivity.
  - reflexivity.
Defined.

(** * Where the code departs from the statements as written *)

(** C2 as written fails: with [scrollPos = 5] the tick of index 0 is
    stroked (at canvas position 5), yet the click at
    [(0*zoomUnit - 5) + rect.left + timelineStart] calls nothing. *)
Lemma click_on_scrolled_tick_ignored :
  0 < zoom sample_scale /\ 0 < unit sample_scale /\ 0 <= 5 /\
  (exists m rest,
     marks SAMPLE_FRAME_WIDTH (sample_props 5 10) sample_scale 5 500
       = m :: rest /\ m_value m = 0%Z /\ m_sub m = 0%Z) /\
  callbacks
    (handleTimelineClick SAMPLE_OFFSET_X SAMPLE_OFFSET_CANVAS_LEFT
       (Some sample_canvas) (sample_props 5 10) sample_scale
       (mark_startValue SAMPLE_FRAME_WIDTH sample_scale 0 - 5
        + rect_left sample_canvas
        + timelineStart SAMPLE_OFFSET_X SAMPLE_OFFSET_CANVAS_LEFT))
  = [].
Proof.
  split; [reflexivity|]. split; [reflexivity|]. split; [lra|].
  split; [|vm_compute; reflexivity].
  vm_compute. do 2 eexists. repeat split.
Qed.


(** C10 as written fails: with [offsetX = 0], which is not the constant
    10, the tick of index 0 is stroked at canvas position 0, and the click
    on it calls nothing (not the callback with [0 + (0 - 10)]). *)
Lemma click_on_shifted_tick_ignored :
  ~ 0 == timelineStart SAMPLE_OFFSET_X SAMPLE_OFFSET_CANVAS_LEFT /\
  (exists m rest,
     marks SAMPLE_FRAME_WIDTH (sample_props 0 0) sample_scale 0 500
       = m :: rest /\ m_value m = 0%Z /\ m_sub m = 0%Z /\
     m_pos m == mark_startPos SAMPLE_FRAME_WIDTH (sample_props 0 0)
                              sample_scale 0 0) /\
  callbacks
    (handleTimelineClick SAMPLE_OFFSET_X SAMPLE_OFFSET_CANVAS_LEFT
       (Some sample_canvas) (sample_props 0 0) sample_scale
       (rect_left sample_canvas
        + mark_startPos SAMPLE_FRAME_WIDTH (sample_props 0 0)
                        sample_scale 0 0))
  = [].
Proof.
  split; [intro H; discriminate H|].
  split; [|vm_compute; reflexivity].
  vm_compute. do 2 eexists. repeat split.
Qed.

(** * The further properties at sample inputs *)


Lemma strokes_left_to_right_sample :
  StronglySorted left_of
    (marks SAMPLE_FRAME_WIDTH (sample_props 30 10) sample_scale 30 500).
Proof.
  apply (strokes_left_to_right SAMPLE_FRAME_WIDTH (sample_props 30 10)
           sample_scale 30 500); reflexivity.
Defined.




Lemma click_on_stroke_default_sample :
  exists m,
    In m (marks SAMPLE_FRAME_WIDTH
            (destructure SAMPLE_OFFSET_X SAMPLE_OFFSET_CANVAS_LEFT
                         sample_format sample_ruler_props)
            sample_scale 30 500) /\
    exists v,
      callbacks
        (handleTimelineClick SAMPLE_OFFSET_X SAMPLE_OFFSET_CANVAS_LEFT
           (Some sample_canvas)
           (destructure SAMPLE_OFFSET_X SAMPLE_OFFSET_CANVAS_LEFT
                        sample_format sample_ruler_props)
           sample_scale (rect_left sample_canvas + m_pos m))
      = [ v ] /\
      v == (inject_Z (m_value m)
            + inject_Z (m_sub m) / inject_Z (segments sample_scale))
           * zoomUnit SAMPLE_FRAME_WIDTH sample_scale.
Proof.
  pose (m := nth 0 (marks SAMPLE_FRAME_WIDTH
                      (destructure SAMPLE_OFFSET_X SAMPLE_OFFSET_CANVAS_LEFT
                                   sample_format sample_ruler_props)
                      sample_scale 30 500) sample_mark).
  assert (Hin : In m (marks SAMPLE_FRAME_WIDTH
                        (destructure SAMPLE_OFFSET_X SAMPLE_OFFSET_CANVAS_LEFT
                                     sample_format sample_ruler_props)
                        sample_scale 30 500))
    by (vm_compute; left; reflexivity).
  exists m. split; [exact Hin|].
  apply (click_on_stroke_default SAMPLE_FRAME_WIDTH SAMPLE_OFFSET_X
           SAMPLE_OFFSET_CANVAS_LEFT sample_format sample_ruler_props
           sample_scale sample_canvas 7%nat 500 m eq_refl eq_refl Hin).
  vm_compute. discriminate.
Defined.

Lemma drag_keeps_press_props_sample :
  snd (step SAMPLE_OFFSET_X SAMPLE_OFFSET_CANVAS_LEFT sample_format
         (fst (run SAMPLE_OFFSET_X SAMPLE_OFFSET_CANVAS_LEFT sample_format
                 (mount (sample_props 0 10) sample_scale (Some sample_canvas))
                 [ MouseDown 50; DocMouseMove 60;
                   Rerender sample_ruler_props sample_scale; MouseDown 70 ]))
         (DocMouseMove 80))
  = handleTimelineClick SAMPLE_OFFSET_X SAMPLE_OFFSET_CANVAS_LEFT
      (Some sample_canvas) (sample_props 0 10) sample_scale 80.
Proof.
  apply (drag_keeps_press_props SAMPLE_OFFSET_X SAMPLE_OFFSET_CANVAS_LEFT
           sample_format
           (mount (sample_props 0 10) sample_scale (Some sample_canvas))
           50
           [ DocMouseMove 60; Rerender sample_ruler_props sample_scale;
             MouseDown 70 ]
           80).
  - unfold drag_invariant. simpl. split; reflexivity.
  - reflexivity.
  - reflexivity.
Defined.

Lemma gesture_reports_in_order_sample :
  callbacks
    (snd (run SAMPLE_OFFSET_X SAMPLE_OFFSET_CANVAS_LEFT sample_format
            (mount (sample_props 0 10) sample_scale (Some sample_canvas))
            (MouseDown 50 :: map DocMouseMove [ 80; 5; 30 ] ++ [ DocMouseUp ])))
  = callbacks
      (flat_map (handleTimelineClick SAMPLE_OFFSET_X SAMPLE_OFFSET_CANVAS_LEFT
                   (Some sample_canvas) (sample_props 0 10) sample_scale)
                [ 50; 80; 5; 30 ]).
Proof.
  apply (gesture_reports_in_order SAMPLE_OFFSET_X SAMPLE_OFFSET_CANVAS_LEFT
           sample_format
           (mount (sample_props 0 10) sample_scale (Some sample_canvas))
           50 [ 80; 5; 30 ]).
  - unfold drag_invariant. simpl. split; reflexivity.
  - reflexivity.
Defined.

Lemma scroll_by_whole_ticks_sample :
  Forall2 (same_stroke 2)
    (marks SAMPLE_FRAME_WIDTH (sample_props 30 10) sample_scale 30 500)
    (marks SAMPLE_FRAME_WIDTH (sample_props 30 10) sample_scale
           (30 + inject_Z 2 * zoomUnit SAMPLE_FRAME_WIDTH sample_scale) 500).
Proof.
  apply (scroll_by_whole_ticks SAMPLE_FRAME_WIDTH (sample_props 30 10)
           sample_scale 30 500 2).
  - reflexivity.
  - reflexivity.
  - reflexivity.
  - unfold Qle; simpl; lia.
  - vm_compute. discriminate.
Defined.

Lemma no_callback_no_report_sample :
  callbacks
    (snd (run SAMPLE_OFFSET_X SAMPLE_OFFSET_CANVAS_LEFT sample_format
            (mount sample_silent_props sample_scale (Some sample_canvas))
            [ MouseDown 50; DocMouseMove 80; DocMouseUp ]))
  = [].
Proof.
  apply (no_callback_no_report SAMPLE_OFFSET_X SAMPLE_OFFSET_CANVAS_LEFT
           sample_format sample_silent_props sample_scale
           (Some sample_canvas)
           [ MouseDown 50; DocMouseMove 80; DocMouseUp ] 50).
  - reflexivity.
  - reflexivity.
Defined.
